(** * Replicated key-value store: server registers, client engines, configuration

    A shallow embedding of the protocol layer of the store:
    - [ABDProtocol]       src/protocol/abd.{h,cpp}
    - [BlockingProtocol]  src/protocol/blocking.{h,cpp}
    - [ABDClientImpl]     src/client/abd_client_impl.{h,cpp}
    - [BlockingClientImpl] src/client/blocking_client_impl.{h,cpp}
    - [Config]            src/common/config.{h,cpp}

    Conventions.  An [int64_t] / [int32_t] is a [Z]; every arithmetic
    operation of the source that can leave the range is followed by its
    two's-complement wrap-around ([wrap64], [wrap32]).  A [std::map] with
    string keys is a [gmap string _].  Every reading of a clock
    ([system_clock::now], [steady_clock::now]) is an explicit argument of
    the operation that performs it, in the order the source performs them.
    A mutex-protected method is one atomic state transition. *)

From Stdlib Require Import ZArith Lia Ascii String DecimalString DecimalZ.
From stdpp Require Import gmap strings list fin_maps.

Open Scope Z_scope.

(** ** Machine integers *)

Definition INT64_MAX : Z := 2 ^ 63 - 1.
Definition INT64_MIN : Z := - 2 ^ 63.
Definition INT32_MAX : Z := 2 ^ 31 - 1.
Definition INT32_MIN : Z := - 2 ^ 31.

(** Two's-complement reduction of a mathematical integer to 64 / 32 bits. *)
Definition wrap64 (z : Z) : Z := (z + 2 ^ 63) mod 2 ^ 64 - 2 ^ 63.
Definition wrap32 (z : Z) : Z := (z + 2 ^ 31) mod 2 ^ 32 - 2 ^ 31.

(** [static_cast<size_t>] of a signed integer (64-bit [size_t]). *)
Definition to_size_t (z : Z) : Z := z mod 2 ^ 64.

Definition in_int64 (z : Z) : Prop := INT64_MIN <= z <= INT64_MAX.
Definition in_int32 (z : Z) : Prop := INT32_MIN <= z <= INT32_MAX.

(** ** The ABD server register (src/protocol/abd.cpp) *)

Module ABDProtocol.

Record ValueEntry := mkValueEntry { value : string; timestamp : Z }.

Record ReadResult := mkReadResult
  { rr_value : string; rr_timestamp : Z; rr_success : bool }.

Record WriteResult := mkWriteResult
  { wr_success : bool; wr_timestamp : Z }.

(** The two data members behind [mutex_]. *)
Record t := mk
  { store_ : gmap string ValueEntry; last_timestamp_ : Z }.

(** [ABDProtocol::ABDProtocol()]. *)
Definition init : t := {| store_ := ∅; last_timestamp_ := 0 |}.

(** [GenerateTimestamp]; [current] is the wall clock in milliseconds. *)
Definition GenerateTimestamp (current : Z) (st : t) : Z * t :=
  let last :=
    if current >? last_timestamp_ st then current
    else wrap64 (last_timestamp_ st + 1) in
  (last, {| store_ := store_ st; last_timestamp_ := last |}).

(** [Read]; the second parameter is unnamed in the source. *)
Definition Read (key : string) (client_timestamp : Z) (st : t) : ReadResult :=
  match store_ st !! key with
  | Some e => mkReadResult (value e) (timestamp e) true
  | None => mkReadResult EmptyString 0 true
  end.

(** [Write]. *)
Definition Write (key val : string) (client_timestamp current : Z) (st : t)
  : WriteResult * t :=
  let '(server_timestamp, st1) := GenerateTimestamp current st in
  let final_timestamp := Z.max client_timestamp server_timestamp in
  (mkWriteResult true final_timestamp,
   {| store_ := <[key := mkValueEntry val final_timestamp]> (store_ st1);
      last_timestamp_ := last_timestamp_ st1 |}).

(** [GetTimestamp] and [GetValue]. *)
Definition GetTimestamp (key : string) (st : t) : Z :=
  match store_ st !! key with Some e => timestamp e | None => 0 end.

Definition GetValue (key : string) (st : t) : string :=
  match store_ st !! key with Some e => value e | None => EmptyString end.

(** A request as the replica receives it, with the clock reading the
    handler takes while it runs. *)
Inductive request :=
| ReqRead (key : string) (client_timestamp : Z)
| ReqWrite (key val : string) (client_timestamp current : Z).

Definition step (st : t) (r : request) : t :=
  match r with
  | ReqRead _ _ => st
  | ReqWrite k v ts cur => snd (Write k v ts cur st)
  end.

Definition run (st : t) (rs : list request) : t := foldl step st rs.

(** Requests that write [key]. *)
Definition writes_key (key : string) (r : request) : bool :=
  match r with
  | ReqWrite k _ _ _ => bool_decide (k = key)
  | ReqRead _ _ => false
  end.

Definition is_write (r : request) : bool :=
  match r with ReqWrite _ _ _ _ => true | ReqRead _ _ => false end.

(** Every wall-clock reading taken while handling [rs] is below [bound]. *)
Definition readings_below (bound : Z) (rs : list request) : Prop :=
  Forall (fun r => match r with
                   | ReqWrite _ _ _ current => current < bound
                   | ReqRead _ _ => True
                   end) rs.

(** No write of [rs] carries a client timestamp ahead of the wall clock
    of the replica that handles it. *)
Definition clients_behind (rs : list request) : Prop :=
  Forall (fun r => match r with
                   | ReqWrite _ _ client_timestamp current => client_timestamp <= current
                   | ReqRead _ _ => True
                   end) rs.

(** No stored timestamp is ahead of the generator. *)
Definition store_behind_generator (st : t) : Prop :=
  0 <= last_timestamp_ st
  /\ forall k e, store_ st !! k = Some e -> timestamp e <= last_timestamp_ st.

End ABDProtocol.

(** ** The blocking server register (src/protocol/blocking.cpp) *)

Module BlockingProtocol.

Record ValueEntry := mkValueEntry { value : string; timestamp : Z }.

(** [acquired_at] is a [steady_clock::time_point], counted in ticks of
    that clock since its epoch. *)
Record LockEntry := mkLockEntry { owner_id : Z; acquired_at : Z }.

Record LockResult := mkLockResult { lr_granted : bool; lr_timestamp : Z }.

Record ReadResult := mkReadResult
  { rr_value : string; rr_timestamp : Z; rr_success : bool }.

Record WriteResult := mkWriteResult
  { wr_success : bool; wr_timestamp : Z }.

Record t := mk
  { store_ : gmap string ValueEntry;
    locks_ : gmap string LockEntry;
    last_timestamp_ : Z }.

Definition init : t := {| store_ := ∅; locks_ := ∅; last_timestamp_ := 0 |}.

Definition LOCK_TIMEOUT_SECONDS : Z := 30.

(** Ticks of [std::chrono::steady_clock] per second: its period is
    nanoseconds in libstdc++ and libc++. *)
Definition STEADY_TICKS_PER_SECOND : Z := 1000000000.

(** [duration_cast<std::chrono::seconds>(d).count()]: truncation toward
    zero to whole seconds. *)
Definition duration_cast_seconds (d : Z) : Z := Z.quot d STEADY_TICKS_PER_SECOND.

(** The clock readings one [AcquireLock] call takes: [now] is the
    [steady_clock::now()] of the timeout test, [ctor_now] the one in the
    [LockEntry(int32_t)] constructor, [wall] the last
    [GetCurrentTimestamp()] (the reading at the top of the function is
    overwritten in every branch). *)
Record clocks := mkClocks { now : Z; ctor_now : Z; wall : Z }.

Definition with_locks (st : t) (l : gmap string LockEntry) : t :=
  {| store_ := store_ st; locks_ := l; last_timestamp_ := last_timestamp_ st |}.

(** [AcquireLock]. *)
Definition AcquireLock (key : string) (client_id : Z) (c : clocks) (st : t)
  : LockResult * t :=
  match locks_ st !! key with
  | Some e =>
      let elapsed := duration_cast_seconds (now c - acquired_at e) in
      if elapsed >? LOCK_TIMEOUT_SECONDS then
        (mkLockResult true (wall c),
         with_locks st
           (<[key := mkLockEntry client_id (ctor_now c)]> (delete key (locks_ st))))
      else if owner_id e =? client_id then
        (mkLockResult true (wall c), st)
      else
        (mkLockResult false (wall c), st)
  | None =>
      (mkLockResult true (wall c),
       with_locks st (<[key := mkLockEntry client_id (ctor_now c)]> (locks_ st)))
  end.

(** [ReleaseLock]. *)
Definition ReleaseLock (key : string) (client_id : Z) (st : t) : bool * t :=
  match locks_ st !! key with
  | Some e =>
      if owner_id e =? client_id
      then (true, with_locks st (delete key (locks_ st)))
      else (false, st)
  | None => (false, st)
  end.

(** The guard shared by [Read] and [Write]:
    [lock_it == locks_.end() || lock_it->second.owner_id != client_id]
    is false. *)
Definition holds_lock (key : string) (client_id : Z) (st : t) : bool :=
  match locks_ st !! key with
  | Some e => owner_id e =? client_id
  | None => false
  end.

(** [Read]; a rejected read returns the default-constructed value. *)
Definition Read (key : string) (client_id : Z) (st : t) : ReadResult :=
  if holds_lock key client_id st then
    match store_ st !! key with
    | Some e => mkReadResult (value e) (timestamp e) true
    | None => mkReadResult EmptyString 0 true
    end
  else mkReadResult EmptyString 0 false.

(** [GenerateTimestamp]; [current] is the wall clock in milliseconds. *)
Definition GenerateTimestamp (current : Z) (st : t) : Z * t :=
  let last :=
    if current >? last_timestamp_ st then current
    else wrap64 (last_timestamp_ st + 1) in
  (last, {| store_ := store_ st; locks_ := locks_ st; last_timestamp_ := last |}).

(** [Write]; [rejected_ts] is the value of the uninitialised
    [result.timestamp] that a rejected write returns. *)
Definition Write (key val : string) (client_timestamp client_id : Z)
    (current rejected_ts : Z) (st : t) : WriteResult * t :=
  if holds_lock key client_id st then
    let '(server_timestamp, st1) := GenerateTimestamp current st in
    let final_timestamp := Z.max client_timestamp server_timestamp in
    (mkWriteResult true final_timestamp,
     {| store_ := <[key := mkValueEntry val final_timestamp]> (store_ st1);
        locks_ := locks_ st1;
        last_timestamp_ := last_timestamp_ st1 |})
  else (mkWriteResult false rejected_ts, st).

Definition GetTimestamp (key : string) (st : t) : Z :=
  match store_ st !! key with Some e => timestamp e | None => 0 end.

Definition GetValue (key : string) (st : t) : string :=
  match store_ st !! key with Some e => value e | None => EmptyString end.

Definition IsLocked (key : string) (st : t) : bool :=
  bool_decide (is_Some (locks_ st !! key)).

Definition GetLockOwner (key : string) (st : t) : Z :=
  match locks_ st !! key with Some e => owner_id e | None => -1 end.

Inductive request :=
| ReqAcquireLock (key : string) (client_id : Z) (c : clocks)
| ReqReleaseLock (key : string) (client_id : Z)
| ReqRead (key : string) (client_id : Z)
| ReqWrite (key val : string) (client_timestamp client_id current rejected_ts : Z).

Definition step (st : t) (r : request) : t :=
  match r with
  | ReqAcquireLock k cid c => snd (AcquireLock k cid c st)
  | ReqReleaseLock k cid => snd (ReleaseLock k cid st)
  | ReqRead _ _ => st
  | ReqWrite k v ts cid cur rts => snd (Write k v ts cid cur rts st)
  end.

Definition run (st : t) (rs : list request) : t := foldl step st rs.

(** [client_id] is the owner recorded in the lock table for [key]. *)
Definition owns_lock (key : string) (client_id : Z) (st : t) : Prop :=
  exists e, locks_ st !! key = Some e /\ owner_id e = client_id.

(** The key and the client of a request. *)
Definition request_key (r : request) : string :=
  match r with
  | ReqAcquireLock k _ _ | ReqReleaseLock k _ | ReqRead k _ | ReqWrite k _ _ _ _ _ => k
  end.

Definition request_client (r : request) : Z :=
  match r with
  | ReqAcquireLock _ cid _ | ReqReleaseLock _ cid | ReqRead _ cid
  | ReqWrite _ _ _ cid _ _ => cid
  end.

(** A lock request arrives before the lock entry [e] has timed out. *)
Definition in_time (e : LockEntry) (r : request) : Prop :=
  match r with
  | ReqAcquireLock _ _ c =>
      duration_cast_seconds (now c - acquired_at e) <= LOCK_TIMEOUT_SECONDS
  | _ => True
  end.

Definition is_write (r : request) : bool :=
  match r with ReqWrite _ _ _ _ _ _ => true | _ => false end.

Definition is_lock_request (r : request) : bool :=
  match r with ReqAcquireLock _ _ _ | ReqReleaseLock _ _ => true | _ => false end.

End BlockingProtocol.

(** ** Helpers (src/common/utils.{h,cpp}) *)

Module Utils.

(** *** [TimestampGenerator] *)

Record TimestampGenerator := mkTimestampGenerator
  { last_timestamp_ : Z; sequence_ : Z }.

(** [TimestampGenerator::TimestampGenerator()]. *)
Definition init : TimestampGenerator := mkTimestampGenerator 0 0.

(** [Generate]; [current] is what [GetCurrentTimestamp()] reads.
    [sequence_] is an [int32_t], the result an [int64_t]. *)
Definition Generate (current : Z) (g : TimestampGenerator) : Z * TimestampGenerator :=
  let g' :=
    if current >? last_timestamp_ g then mkTimestampGenerator current 0
    else mkTimestampGenerator (last_timestamp_ g) (wrap32 (sequence_ g + 1)) in
  (wrap64 (wrap64 (last_timestamp_ g' * 1000) + sequence_ g'), g').

(** *** [std::string] operations used by the helpers *)

(** [s.find(c)]: the position of the first [c], [None] for [npos]. *)
Fixpoint find (c : ascii) (s : string) : option nat :=
  match s with
  | EmptyString => None
  | String a rest => if Ascii.eqb a c then Some 0%nat else S <$> find c rest
  end.

(** [s.substr(0, n)]. *)
Fixpoint substr_to (n : nat) (s : string) : string :=
  match n, s with
  | S m, String a rest => String a (substr_to m rest)
  | _, _ => EmptyString
  end.

(** [s.substr(pos)], for [pos] within the string. *)
Fixpoint substr_from (pos : nat) (s : string) : string :=
  match pos, s with
  | S p, String _ rest => substr_from p rest
  | _, _ => s
  end.

(** [std::isspace] and [std::isdigit] in the C locale. *)
Definition isspace (c : ascii) : bool :=
  let n := nat_of_ascii c in
  Nat.eqb n 32 || (Nat.leb 9 n && Nat.leb n 13).

Definition isdigit (c : ascii) : bool :=
  let n := nat_of_ascii c in Nat.leb 48 n && Nat.leb n 57.

Fixpoint skip_space (s : string) : string :=
  match s with
  | String c rest => if isspace c then skip_space rest else s
  | EmptyString => s
  end.

(** The longest prefix made of decimal digits. *)
Fixpoint digit_prefix (s : string) : string :=
  match s with
  | String c rest => if isdigit c then String c (digit_prefix rest) else EmptyString
  | EmptyString => EmptyString
  end.

(** [std::stoi(s)]: leading white space is skipped, an optional sign is
    read, then as many decimal digits as there are; what follows is
    ignored.  [None] stands for the exception thrown: [invalid_argument]
    when there is no digit, [out_of_range] when the value is not an
    [int]. *)
Definition stoi (s : string) : option Z :=
  let s := skip_space s in
  let '(negative, s) :=
    match s with
    | String "-"%char rest => (true, rest)
    | String "+"%char rest => (false, rest)
    | _ => (false, s)
    end in
  match digit_prefix s with
  | EmptyString => None
  | digits =>
      match NilEmpty.uint_of_string digits with
      | Some d =>
          let v := if negative : bool then - Z.of_uint d else Z.of_uint d in
          if (INT32_MIN <=? v) && (v <=? INT32_MAX) then Some v else None
      | None => None
      end
  end.

(** [std::to_string(int)]: the decimal digits, after a minus sign for a
    negative number. *)
Definition to_string (n : Z) : string := NilZero.string_of_int (Z.to_int n).

(** *** Addresses *)

(** [ParseAddress]; [host] and [port] are the values the two reference
    parameters hold at the call, the result carries what they hold at the
    return. *)
Definition ParseAddress (address : string) (host : string) (port : Z)
  : bool * string * Z :=
  match find ":"%char address with
  | None => (false, host, port)
  | Some colon_pos =>
      let host := substr_to colon_pos address in
      match stoi (substr_from (colon_pos + 1) address) with
      | Some p => (true, host, p)
      | None => (false, host, port)
      end
  end.

(** [FormatAddress]. *)
Definition FormatAddress (host : string) (port : Z) : string :=
  (host ++ ":" ++ to_string port)%string.

End Utils.

(** ** Configuration (src/common/config.{h,cpp}) *)

Module Config.

Record ServerInfo := mkServerInfo { id : Z; host : string; port : Z }.

Inductive ProtocolType := ABD | BLOCKING.

Record t := mk
  { servers_ : list ServerInfo;
    protocol_ : ProtocolType;
    read_quorum_ : Z;
    write_quorum_ : Z;
    num_replicas_ : Z;
    server_id_ : Z;
    port_ : Z }.

(** [servers_.size()]. *)
Definition size (c : t) : Z := Z.of_nat (length (servers_ c)).

(** The lines [Validate] writes to [std::cerr]. *)
Inductive diagnostic :=
| ErrorNoServers
| ErrorInvalidQuorum
| WarningNumReplicas
| WarningConsistency.

(** [Validate]: the verdict and the diagnostics printed, in order. *)
Definition Validate (c : t) : bool * list diagnostic :=
  match servers_ c with
  | [] => (false, [ErrorNoServers])
  | _ :: _ =>
      if (read_quorum_ c <=? 0) || (write_quorum_ c <=? 0) then
        (false, [ErrorInvalidQuorum])
      else
        let w1 :=
          if (num_replicas_ c >? 0) && negb (to_size_t (num_replicas_ c) =? size c)
          then [WarningNumReplicas] else [] in
        let n := wrap32 (size c) in
        let w2 :=
          if wrap32 (read_quorum_ c + write_quorum_ c) <=? n
          then [WarningConsistency] else [] in
        (true, w1 ++ w2)
  end.

(** [ServerInfo::GetAddress]. *)
Definition GetAddress (s : ServerInfo) : string :=
  (host s ++ ":" ++ Utils.to_string (port s))%string.

(** [GetServer]: the first server with this id, or the invalid server. *)
Fixpoint find_server (id0 : Z) (servers : list ServerInfo) : ServerInfo :=
  match servers with
  | [] => mkServerInfo 0 EmptyString 0
  | server :: rest => if id server =? id0 then server else find_server id0 rest
  end.

Definition GetServer (id0 : Z) (c : t) : ServerInfo := find_server id0 (servers_ c).

End Config.

(** ** Client engines: what the transport hands back

    A client operation is a function of the replies of the replicas.  The
    reply of replica [i] to an RPC is the [i]-th element of a list; a
    replica without an element did not answer (the RPC status is not OK). *)

(** What the client-side [WriteToServer] sees: [Some ts] when
    [status.ok() && reply.success()], with [ts = reply.timestamp()]. *)
Definition write_reply := option Z.

(** Timestamps a client puts on the wire ([Issued]) and timestamps it
    takes out of a reply it examines ([Observed]), oldest first. *)
Inductive event :=
| Issued (ts : Z)
| Observed (ts : Z).

Definition event_ts (e : event) : Z :=
  match e with Issued ts => ts | Observed ts => ts end.

(** Every [Issued] timestamp of the history is strictly greater than the
    timestamp of every earlier event. *)
Fixpoint issued_fresh_from (seen : list Z) (tr : list event) : bool :=
  match tr with
  | [] => true
  | Issued ts :: rest =>
      forallb (fun s => s <? ts) seen && issued_fresh_from (ts :: seen) rest
  | Observed ts :: rest => issued_fresh_from (ts :: seen) rest
  end.

Definition issued_fresh (tr : list event) : bool := issued_fresh_from [] tr.

(** ** The ABD client engine (src/client/abd_client_impl.cpp) *)

Module ABDClientImpl.

Record ReadResponse := mkReadResponse
  { value : string; timestamp : Z; success : bool }.

(** The response [ReadFromServer] builds when the RPC status is not OK. *)
Definition no_response : ReadResponse := mkReadResponse EmptyString 0 false.

(** [UpdateTimestamp], on the value of [client_timestamp_]. *)
Definition UpdateTimestamp (timestamp : Z) (client_timestamp_ : Z) : Z :=
  wrap64 ((if timestamp >? client_timestamp_ then timestamp else client_timestamp_) + 1).

(** Phase 1 of [Read]: the loop over [futures] that fills [responses]
    and leaves as soon as the read quorum is reached. *)
Fixpoint collect_responses (read_quorum : Z) (futures responses : list ReadResponse)
  : list ReadResponse :=
  match futures with
  | [] => responses
  | response :: rest =>
      if success response then
        let responses := responses ++ [response] in
        if wrap32 (Z.of_nat (length responses)) >=? read_quorum then responses
        else collect_responses read_quorum rest responses
      else collect_responses read_quorum rest responses
  end.

(** [std::max_element] with the comparator [a.timestamp < b.timestamp]:
    the first greatest element, [None] for the past-the-end iterator. *)
Fixpoint max_element_from (largest : ReadResponse) (l : list ReadResponse)
  : ReadResponse :=
  match l with
  | [] => largest
  | r :: rest =>
      max_element_from (if timestamp largest <? timestamp r then r else largest) rest
  end.

Definition max_element (l : list ReadResponse) : option ReadResponse :=
  match l with
  | [] => None
  | r :: rest => Some (max_element_from r rest)
  end.

(** Phase 2 of [Read]: [WriteToServer] on the stubs in index order while
    [written < write_quorum].  Returns [written], the clock and the
    timestamps taken from the replies. *)
Fixpoint write_back (write_quorum : Z) (stubs : list write_reply)
    (written clock : Z) : Z * Z * list event :=
  match stubs with
  | [] => (written, clock, [])
  | reply :: rest =>
      if written <? write_quorum then
        match reply with
        | Some ts =>
            let '(w, c, tr) :=
              write_back write_quorum rest (wrap32 (written + 1)) (UpdateTimestamp ts clock) in
            (w, c, Observed ts :: tr)
        | None => write_back write_quorum rest written clock
        end
      else (written, clock, [])
  end.

Inductive read_outcome :=
| ReadOk (value : string)
| ReadFail
(** [max_element] of an empty vector is dereferenced. *)
| ReadUndefined.

(** [Read].  [reads] are the replies to the phase-1 requests, [writes]
    the replies to the write-back. *)
Definition Read (cfg : Config.t) (reads : list ReadResponse) (writes : list write_reply)
    (clock : Z) : read_outcome * Z * list event :=
  let read_quorum := Config.read_quorum_ cfg in
  let n := length (Config.servers_ cfg) in
  if to_size_t read_quorum >? Config.size cfg then (ReadFail, clock, [])
  else
    let futures := map (fun i => default no_response (reads !! i)) (seq 0 n) in
    let responses := collect_responses read_quorum futures [] in
    let seen := map (fun r => Observed (timestamp r)) responses in
    if wrap32 (Z.of_nat (length responses)) <? read_quorum then (ReadFail, clock, seen)
    else
      match max_element responses with
      | None => (ReadUndefined, clock, seen)
      | Some max_response =>
          let max_value := value max_response in
          let max_timestamp := timestamp max_response in
          let write_timestamp := wrap64 (Z.max max_timestamp clock + 1) in
          let clock := UpdateTimestamp write_timestamp clock in
          let write_quorum := Config.write_quorum_ cfg in
          let stubs := map (fun i => default None (writes !! i)) (seq 0 n) in
          let '(written, clock, tr) := write_back write_quorum stubs 0 clock in
          (if written <? write_quorum then ReadFail else ReadOk max_value,
           clock, seen ++ Issued write_timestamp :: tr)
      end.

(** The [UpdateTimestamp] calls of the [WriteToServer] workers of one
    [Write], taken in the order of the list; [Write] below hands it the
    replies in index order, which is one of the orders the concurrent
    workers can take, [Write_scheduled] any of them. *)
Fixpoint absorb_replies (replies : list write_reply) (clock : Z) : Z * list event :=
  match replies with
  | [] => (clock, [])
  | Some ts :: rest =>
      let '(c, tr) := absorb_replies rest (UpdateTimestamp ts clock) in
      (c, Observed ts :: tr)
  | None :: rest => absorb_replies rest clock
  end.

(** The acknowledgement loop of [Write]: counts until the quorum. *)
Fixpoint count_acks (write_quorum : Z) (futures : list write_reply) (written : Z) : Z :=
  match futures with
  | [] => written
  | Some _ :: rest =>
      let written := wrap32 (written + 1) in
      if written >=? write_quorum then written
      else count_acks write_quorum rest written
  | None :: rest => count_acks write_quorum rest written
  end.

(** [Write].  All workers are joined before [Write] returns (the
    destructor of a [std::async] future waits), so every successful reply
    has updated the clock by then. *)
Definition Write (cfg : Config.t) (writes : list write_reply) (clock : Z)
  : bool * Z * list event :=
  let write_quorum := Config.write_quorum_ cfg in
  let n := length (Config.servers_ cfg) in
  if to_size_t write_quorum >? Config.size cfg then (false, clock, [])
  else
    let timestamp := wrap64 (clock + 1) in
    let clock := UpdateTimestamp timestamp clock in
    let futures := map (fun i => default None (writes !! i)) (seq 0 n) in
    let '(clock, tr) := absorb_replies futures clock in
    let written := count_acks write_quorum futures 0 in
    (negb (written <? write_quorum), clock, Issued timestamp :: tr).

(** One client operation with the replies it meets. *)
Inductive operation :=
| OpRead (reads : list ReadResponse) (writes : list write_reply)
| OpWrite (writes : list write_reply).

(** A client executes its operations one after the other; the state
    carried over is the clock, the history accumulates. *)
Definition exec (cfg : Config.t) (s : Z * list event) (o : operation) : Z * list event :=
  let '(clock, history) := s in
  match o with
  | OpRead reads writes =>
      let '(_, c, tr) := Read cfg reads writes clock in (c, history ++ tr)
  | OpWrite writes =>
      let '(_, c, tr) := Write cfg writes clock in (c, history ++ tr)
  end.

Definition run (cfg : Config.t) (clock : Z) (ops : list operation) : Z * list event :=
  foldl (exec cfg) (clock, []) ops.

(** The answers an operation waits for, one per configured server. *)
Definition read_futures (cfg : Config.t) (reads : list ReadResponse) : list ReadResponse :=
  map (fun i => default no_response (reads !! i)) (seq 0 (length (Config.servers_ cfg))).

Definition write_futures (cfg : Config.t) (writes : list write_reply) : list write_reply :=
  map (fun i => default None (writes !! i)) (seq 0 (length (Config.servers_ cfg))).

(** The successful ones among them, in server order. *)
Definition successful (futures : list ReadResponse) : list ReadResponse :=
  filter (fun r => success r = true) futures.

Definition acknowledged (futures : list write_reply) : list Z :=
  omap id futures.

(** [Write] with the schedule of its workers made explicit.  The
    [WriteToServer] calls of one [Write] run concurrently and each
    successful one calls [UpdateTimestamp] under [timestamp_mutex_];
    [order] lists the server indices in the order in which the workers
    take that mutex, a permutation of the indices.  The calls come after
    the [UpdateTimestamp] of the issuing thread, which precedes the
    launch of the workers, and all are made by the time [Write] returns.
    The acknowledgement loop does not depend on the order.  [Write] above
    is the schedule in which the workers come in index order. *)
Definition Write_scheduled (cfg : Config.t) (writes : list write_reply)
    (order : list nat) (clock : Z) : bool * Z * list event :=
  let write_quorum := Config.write_quorum_ cfg in
  let n := length (Config.servers_ cfg) in
  if to_size_t write_quorum >? Config.size cfg then (false, clock, [])
  else
    let timestamp := wrap64 (clock + 1) in
    let clock := UpdateTimestamp timestamp clock in
    let futures := map (fun i => default None (writes !! i)) (seq 0 n) in
    let '(clock, tr) :=
      absorb_replies (map (fun i => default None (writes !! i)) order) clock in
    let written := count_acks write_quorum futures 0 in
    (negb (written <? write_quorum), clock, Issued timestamp :: tr).

(** The replicas behind the stubs, all reachable.  [ABDServiceImpl::Write]
    and [::Read] (src/server/abd_server.cpp) pass the request to the
    protocol object and its result back; [current i] is the wall clock
    replica [i] reads while it handles the write. *)
Definition serve_write (key val : string) (timestamp : Z) (current : nat -> Z)
    (replicas : list ABDProtocol.t) : list write_reply :=
  imap (fun i s =>
          let result := fst (ABDProtocol.Write key val timestamp (current i) s) in
          if ABDProtocol.wr_success result
          then Some (ABDProtocol.wr_timestamp result) else None)
    replicas.

Definition after_write (key val : string) (timestamp : Z) (current : nat -> Z)
    (replicas : list ABDProtocol.t) : list ABDProtocol.t :=
  imap (fun i s => snd (ABDProtocol.Write key val timestamp (current i) s)) replicas.

Definition serve_read (key : string) (client_timestamp : Z)
    (replicas : list ABDProtocol.t) : list ReadResponse :=
  map (fun s => let r := ABDProtocol.Read key client_timestamp s in
                mkReadResponse (ABDProtocol.rr_value r) (ABDProtocol.rr_timestamp r)
                  (ABDProtocol.rr_success r)) replicas.

End ABDClientImpl.

(** ** The blocking client engine (src/client/blocking_client_impl.cpp) *)

Module BlockingClientImpl.

Record ReadResponse := mkReadResponse
  { value : string; timestamp : Z; success : bool }.

Definition no_response : ReadResponse := mkReadResponse EmptyString 0 false.

(** The requests a client operation puts on the wire, by replica index,
    oldest first. *)
Inductive rpc :=
| RpcAcquireLock (i : nat)
| RpcReleaseLock (i : nat)
| RpcRead (i : nat)
| RpcWrite (i : nat) (timestamp : Z).

(** [UpdateTimestamp]. *)
Definition UpdateTimestamp (timestamp : Z) (client_timestamp_ : Z) : Z :=
  wrap64 ((if timestamp >? client_timestamp_ then timestamp else client_timestamp_) + 1).

(** Phase 1: the loop over [lock_futures], from index [i] on; [granted]
    is what each [lock_futures[i].get()] reports.  It leaves as soon as
    the quorum is reached. *)
Fixpoint collect_locks (quorum : Z) (i : nat) (lock_futures : list bool)
    (locked_server_indices : list nat) : list nat :=
  match lock_futures with
  | [] => locked_server_indices
  | granted :: rest =>
      if granted then
        let locked := locked_server_indices ++ [i] in
        if wrap32 (Z.of_nat (length locked)) >=? quorum then locked
        else collect_locks quorum (S i) rest locked
      else collect_locks quorum (S i) rest locked_server_indices
  end.

(** [for (size_t idx : locked_server_indices) ReleaseLockFromServer(...)]. *)
Definition release_all (locked_server_indices : list nat) : list rpc :=
  map RpcReleaseLock locked_server_indices.

(** Phase 2 of [Write]: [WriteToServer] on every locked replica. *)
Fixpoint write_locked (timestamp : Z) (writes : list write_reply)
    (locked_server_indices : list nat) (written clock : Z) : Z * Z * list rpc :=
  match locked_server_indices with
  | [] => (written, clock, [])
  | idx :: rest =>
      let '(w, c, tr) :=
        match default None (writes !! idx) with
        | Some ts =>
            write_locked timestamp writes rest (wrap32 (written + 1))
              (UpdateTimestamp ts clock)
        | None => write_locked timestamp writes rest written clock
        end in
      (w, c, RpcWrite idx timestamp :: tr)
  end.

(** [Write].  [locks] are the grants the replicas answer with, [writes]
    their replies to the write. *)
Definition Write (cfg : Config.t) (locks : list bool) (writes : list write_reply)
    (clock : Z) : bool * Z * list rpc :=
  let write_quorum := Config.write_quorum_ cfg in
  let n := length (Config.servers_ cfg) in
  if to_size_t write_quorum >? Config.size cfg then (false, clock, [])
  else
    let lock_futures := map (fun i => default false (locks !! i)) (seq 0 n) in
    let sent := map RpcAcquireLock (seq 0 n) in
    let locked_server_indices := collect_locks write_quorum 0 lock_futures [] in
    if wrap32 (Z.of_nat (length locked_server_indices)) <? write_quorum then
      (false, clock, sent ++ release_all locked_server_indices)
    else
      let timestamp := wrap64 (clock + 1) in
      let clock := UpdateTimestamp timestamp clock in
      let '(written, clock, tr) :=
        write_locked timestamp writes locked_server_indices 0 clock in
      (negb (written <? write_quorum), clock,
       sent ++ tr ++ release_all locked_server_indices).

(** Phase 2 of [Read]: [ReadFromServer] on every locked replica. *)
Definition read_locked (reads : list ReadResponse) (locked_server_indices : list nat)
  : list ReadResponse :=
  filter (fun r => success r = true)
    (map (fun idx => default no_response (reads !! idx)) locked_server_indices).

Fixpoint max_element_from (largest : ReadResponse) (l : list ReadResponse)
  : ReadResponse :=
  match l with
  | [] => largest
  | r :: rest =>
      max_element_from (if timestamp largest <? timestamp r then r else largest) rest
  end.

Definition max_element (l : list ReadResponse) : option ReadResponse :=
  match l with
  | [] => None
  | r :: rest => Some (max_element_from r rest)
  end.

(** [Read]: the value read, if any, and the requests sent.  The clock is
    not touched. *)
Definition Read (cfg : Config.t) (locks : list bool) (reads : list ReadResponse)
  : option string * list rpc :=
  let read_quorum := Config.read_quorum_ cfg in
  let n := length (Config.servers_ cfg) in
  if to_size_t read_quorum >? Config.size cfg then (None, [])
  else
    let lock_futures := map (fun i => default false (locks !! i)) (seq 0 n) in
    let sent := map RpcAcquireLock (seq 0 n) in
    let locked_server_indices := collect_locks read_quorum 0 lock_futures [] in
    if wrap32 (Z.of_nat (length locked_server_indices)) <? read_quorum then
      (None, sent ++ release_all locked_server_indices)
    else
      let asked := map RpcRead locked_server_indices in
      let responses := read_locked reads locked_server_indices in
      match max_element responses with
      | None => (None, sent ++ asked ++ release_all locked_server_indices)
      | Some max_response =>
          (Some (value max_response),
           sent ++ asked ++ release_all locked_server_indices)
      end.

(** The replicas that granted the lock in the acquisition phase of an
    operation: every request is sent and every worker is joined, so these
    are the replicas whose answer is a grant. *)
Definition granting_replicas (cfg : Config.t) (locks : list bool) : list nat :=
  filter (fun i => default false (locks !! i) = true)
    (seq 0 (length (Config.servers_ cfg))).

(** The replicas an operation sent [ReleaseLock] to. *)
Definition released_replicas (tr : list rpc) : list nat :=
  omap (fun r => match r with RpcReleaseLock i => Some i | _ => None end) tr.

(** The positions, counted from [i], at which [lock_futures] holds a
    grant. *)
Fixpoint granted_indices (i : nat) (lock_futures : list bool) : list nat :=
  match lock_futures with
  | [] => []
  | granted :: rest =>
      if granted then i :: granted_indices (S i) rest
      else granted_indices (S i) rest
  end.

(** The replica at [idx] acknowledges the write sent to it. *)
Definition acknowledges (writes : list write_reply) (idx : nat) : Prop :=
  is_Some (default None (writes !! idx)).

(** The replicas behind the stubs: what a request of client [client_id]
    for [key] does to the replica it is sent to.  [c] gives the clock
    readings of the replica while it handles the request, [val] the value
    a write carries. *)
Definition deliver (key val : string) (client_id : Z) (c : BlockingProtocol.clocks)
    (replicas : list BlockingProtocol.t) (r : rpc) : list BlockingProtocol.t :=
  match r with
  | RpcAcquireLock i =>
      alter (fun s => snd (BlockingProtocol.AcquireLock key client_id c s)) i replicas
  | RpcReleaseLock i =>
      alter (fun s => snd (BlockingProtocol.ReleaseLock key client_id s)) i replicas
  | RpcRead i => replicas
  | RpcWrite i ts =>
      alter (fun s => snd (BlockingProtocol.Write key val ts client_id
                             (BlockingProtocol.wall c) 0 s)) i replicas
  end.

(** The answers of the replicas to the lock requests of an operation. *)
Definition lock_replies (key : string) (client_id : Z) (c : BlockingProtocol.clocks)
    (replicas : list BlockingProtocol.t) : list bool :=
  map (fun s => BlockingProtocol.lr_granted
                  (fst (BlockingProtocol.AcquireLock key client_id c s))) replicas.

(** The replicas once each has handled the lock request of the client,
    and their answers to the write that follows
    ([BlockingServiceImpl::Write], src/server/blocking_server.cpp, passes
    the result of the protocol object back). *)
Definition after_acquire (key : string) (client_id : Z) (c : BlockingProtocol.clocks)
    (replicas : list BlockingProtocol.t) : list BlockingProtocol.t :=
  map (fun s => snd (BlockingProtocol.AcquireLock key client_id c s)) replicas.

Definition serve_write (key val : string) (timestamp client_id current : Z)
    (replicas : list BlockingProtocol.t) : list write_reply :=
  map (fun s =>
         let result :=
           fst (BlockingProtocol.Write key val timestamp client_id current 0 s) in
         if BlockingProtocol.wr_success result
         then Some (BlockingProtocol.wr_timestamp result) else None)
    replicas.

(** The lock of [key] at a replica is free for a request made at [c]:
    there is no entry, or the entry has timed out. *)
Definition lock_available (key : string) (c : BlockingProtocol.clocks)
    (s : BlockingProtocol.t) : Prop :=
  match BlockingProtocol.locks_ s !! key with
  | None => True
  | Some e =>
      BlockingProtocol.LOCK_TIMEOUT_SECONDS
      < BlockingProtocol.duration_cast_seconds
          (BlockingProtocol.now c - BlockingProtocol.acquired_at e)
  end.

(** The lock of [key] at a replica is held against [client_id] at [c]:
    another client owns it and it has not timed out. *)
Definition lock_held_against (key : string) (client_id : Z) (c : BlockingProtocol.clocks)
    (s : BlockingProtocol.t) : Prop :=
  exists e, BlockingProtocol.locks_ s !! key = Some e
            /\ BlockingProtocol.owner_id e <> client_id
            /\ BlockingProtocol.duration_cast_seconds
                 (BlockingProtocol.now c - BlockingProtocol.acquired_at e)
               <= BlockingProtocol.LOCK_TIMEOUT_SECONDS.

End BlockingClientImpl.

(** * Properties *)

(** ** Machine integers *)

Lemma wrap64_id z : in_int64 z -> wrap64 z = z.
Proof.
  unfold in_int64, wrap64, INT64_MIN, INT64_MAX. intros Hz.
  rewrite Z.mod_small; lia.
Qed.

Lemma wrap32_id z : in_int32 z -> wrap32 z = z.
Proof.
  unfold in_int32, wrap32, INT32_MIN, INT32_MAX. intros Hz.
  rewrite Z.mod_small; lia.
Qed.

Lemma wrap64_succ z : in_int64 z -> z < INT64_MAX -> wrap64 (z + 1) = z + 1.
Proof.
  intros Hz Hlt. apply wrap64_id. unfold in_int64 in *. lia.
Qed.

Lemma wrap64_range z : in_int64 (wrap64 z).
Proof.
  unfold in_int64, wrap64, INT64_MIN, INT64_MAX.
  pose proof (Z.mod_pos_bound (z + 2 ^ 63) (2 ^ 64)). lia.
Qed.

(** ** The ABD server register *)

Section ABDServer.
Import ABDProtocol.

(** The generator returns its new state. *)
Lemma ABD_GenerateTimestamp_last current st :
  last_timestamp_ (snd (GenerateTimestamp current st)) = fst (GenerateTimestamp current st)
  /\ store_ (snd (GenerateTimestamp current st)) = store_ st.
Proof. done. Qed.

(** Without overflow the generator moves strictly forward and reaches the wall
    clock. *)
Lemma ABD_GenerateTimestamp_increases current st :
  in_int64 (last_timestamp_ st) -> last_timestamp_ st < INT64_MAX ->
  last_timestamp_ st < fst (GenerateTimestamp current st)
  /\ current <= fst (GenerateTimestamp current st).
Proof.
  intros Hr Hlt. unfold GenerateTimestamp; simpl.
  destruct (Z.gtb_spec current (last_timestamp_ st)).
  - lia.
  - rewrite wrap64_succ by done. lia.
Qed.

(** C3. Every server [Write] is accepted; whatever the store held, the entry of
    the key becomes the value with [max client_ts s], where [s] is the
    timestamp the generator has just produced, that maximum is the timestamp
    returned, and no other key is touched. *)
Theorem ABD_Write_stores_max_timestamp key val client_ts current st :
  let s := fst (GenerateTimestamp current st) in
  let final_ts := Z.max client_ts s in
  let r := Write key val client_ts current st in
  wr_success (fst r) = true
  /\ wr_timestamp (fst r) = final_ts
  /\ store_ (snd r) !! key = Some (mkValueEntry val final_ts)
  /\ (forall k, k <> key -> store_ (snd r) !! k = store_ st !! k)
  /\ last_timestamp_ (snd r) = s.
Proof.
  simpl. unfold Write, GenerateTimestamp; simpl.
  repeat split.
  - apply lookup_insert_eq.
  - intros k Hk. by rewrite lookup_insert_ne.
Qed.

(** C8. A server [Read] always succeeds: it returns the stored pair of a key
    that is present and the empty string with timestamp 0 for a key that is
    absent, and its result does not depend on the client timestamp. *)
Theorem ABD_Read_returns_stored_pair key client_ts st :
  rr_success (Read key client_ts st) = true
  /\ (forall e, store_ st !! key = Some e ->
        Read key client_ts st = mkReadResult (value e) (timestamp e) true)
  /\ (store_ st !! key = None ->
        Read key client_ts st = mkReadResult EmptyString 0 true)
  /\ (forall client_ts', Read key client_ts' st = Read key client_ts st).
Proof.
  unfold Read. repeat split.
  - by destruct (store_ st !! key).
  - by intros e ->.
  - by intros ->.
Qed.

Lemma ABD_Read_returns_stored_pair_witness :
  let st := snd (Write "a" "1" 7 1700000000000 init) in
  Read "a" 0 st = mkReadResult "1" 1700000000000 true
  /\ Read "b" 0 st = mkReadResult EmptyString 0 true.
Proof.
  intros st. split.
  - destruct (ABD_Read_returns_stored_pair "a" 0 st) as (_ & Hpresent & _).
    apply (Hpresent (mkValueEntry "1" 1700000000000)). reflexivity.
  - destruct (ABD_Read_returns_stored_pair "b" 0 st) as (_ & _ & Habsent & _).
    apply Habsent. reflexivity.
Defined.

End ABDServer.

(** ** Stored timestamps and server clocks *)

(** While the stored timestamp of a key is not ahead of the generator, a
    [Write] strictly raises it. *)
Lemma ABD_Write_raises_timestamp_behind_generator key val client_ts current st :
  in_int64 (ABDProtocol.last_timestamp_ st) ->
  ABDProtocol.last_timestamp_ st < INT64_MAX ->
  ABDProtocol.GetTimestamp key st <= ABDProtocol.last_timestamp_ st ->
  ABDProtocol.GetTimestamp key st
  < ABDProtocol.GetTimestamp key (snd (ABDProtocol.Write key val client_ts current st)).
Proof.
  intros Hr Hlt Hle.
  destruct (ABD_GenerateTimestamp_increases current st Hr Hlt) as [Hinc _].
  unfold ABDProtocol.GetTimestamp at 2. unfold ABDProtocol.Write.
  destruct (ABDProtocol.GenerateTimestamp current st) as [s st1] eqn:Hg.
  simpl in *. rewrite lookup_insert_eq. simpl. lia.
Qed.

(** C1. The stored timestamp of a key can decrease.  A replica whose wall
    clock reads 1700000000000 takes a write stamped 1700000060000 by a client
    whose clock runs a minute ahead, and stores that timestamp; five
    milliseconds later it takes a write stamped 1700000000001 and stores
    1700000000005.  The same happens on a blocking replica, for a client that
    holds the lock. *)
Theorem Write_lowers_stored_timestamp :
  let a1 := ABDProtocol.run ABDProtocol.init
              [ABDProtocol.ReqWrite "k" "v1" 1700000060000 1700000000000] in
  let a2 := ABDProtocol.step a1
              (ABDProtocol.ReqWrite "k" "v2" 1700000000001 1700000000005) in
  let b1 := BlockingProtocol.run BlockingProtocol.init
              [BlockingProtocol.ReqAcquireLock "k" 1 (BlockingProtocol.mkClocks 0 0 1700000000000);
               BlockingProtocol.ReqWrite "k" "v1" 1700000060000 1 1700000000000 0] in
  let b2 := BlockingProtocol.step b1
              (BlockingProtocol.ReqWrite "k" "v2" 1700000000001 1 1700000000005 0) in
  ABDProtocol.GetTimestamp "k" a1 = 1700000060000
  /\ ABDProtocol.GetTimestamp "k" a2 = 1700000000005
  /\ BlockingProtocol.GetTimestamp "k" b1 = 1700000060000
  /\ BlockingProtocol.GetTimestamp "k" b2 = 1700000000005.
Proof. repeat split; reflexivity. Qed.

(** C7, as stated, fails on the server: after the write stamped 1700000060000
    the generator state of the replica is its wall-clock reading,
    1700000000000. *)
Lemma ABD_Write_generator_below_client_timestamp :
  ABDProtocol.last_timestamp_
    (snd (ABDProtocol.Write "k" "v1" 1700000060000 1700000000000 ABDProtocol.init))
  < 1700000060000.
Proof. reflexivity. Qed.

(** C7, amended. The timestamp an ABD server [Write] stores and returns is at
    least the client timestamp; without overflow its generator state ends
    strictly above its previous value and at least at the wall-clock reading;
    and without overflow the clock of an ABD client after [UpdateTimestamp t]
    is strictly greater than [t] and than its previous value. *)
Theorem clocks_after_observation :
  (forall key val client_ts current st,
      let r := ABDProtocol.Write key val client_ts current st in
      client_ts <= ABDProtocol.wr_timestamp (fst r)
      /\ ABDProtocol.store_ (snd r) !! key
         = Some (ABDProtocol.mkValueEntry val (ABDProtocol.wr_timestamp (fst r)))
      /\ (in_int64 (ABDProtocol.last_timestamp_ st) ->
          ABDProtocol.last_timestamp_ st < INT64_MAX ->
          ABDProtocol.last_timestamp_ st < ABDProtocol.last_timestamp_ (snd r)
          /\ current <= ABDProtocol.last_timestamp_ (snd r)))
  /\ (forall t clock,
        in_int64 t -> in_int64 clock -> t < INT64_MAX -> clock < INT64_MAX ->
        t < ABDClientImpl.UpdateTimestamp t clock
        /\ clock < ABDClientImpl.UpdateTimestamp t clock).
Proof.
  split.
  - intros key val client_ts current st r.
    assert (Hlast : ABDProtocol.last_timestamp_ (snd r)
                    = fst (ABDProtocol.GenerateTimestamp current st)) by done.
    repeat split.
    + simpl. lia.
    + apply lookup_insert_eq.
    + rewrite Hlast. by apply ABD_GenerateTimestamp_increases.
    + rewrite Hlast. by apply ABD_GenerateTimestamp_increases.
  - intros t clock Ht Hc Htlt Hclt. unfold ABDClientImpl.UpdateTimestamp.
    destruct (Z.gtb_spec t clock); rewrite wrap64_succ by done; lia.
Qed.

Lemma clocks_after_observation_witness :
  (1700000000000 < ABDProtocol.last_timestamp_
      (snd (ABDProtocol.Write "k" "v" 5 1700000000000
              (ABDProtocol.mk ∅ 1700000000000))))
  /\ 1700000000042 < ABDClientImpl.UpdateTimestamp 1700000000042 1700000000000.
Proof.
  destruct clocks_after_observation as [Hserver Hclient]. split.
  - apply (Hserver "k" "v" 5 1700000000000 (ABDProtocol.mk ∅ 1700000000000));
      vm_compute; try split; congruence.
  - apply (Hclient 1700000000042 1700000000000);
      vm_compute; try split; congruence.
Defined.

(** ** The blocking server register *)

Section BlockingServer.
Import BlockingProtocol.

Lemma holds_lock_owns key client_id st :
  holds_lock key client_id st = true <-> owns_lock key client_id st.
Proof.
  unfold holds_lock, owns_lock. destruct (locks_ st !! key) as [e|].
  - rewrite Z.eqb_eq. split; [eauto | by intros (e' & [= <-] & ?)].
  - split; [done | by intros (e' & ? & ?)].
Qed.

(** For a lock that is not from the future, the timeout test passes exactly
    when the lock is at least 31 seconds old. *)
Lemma timed_out_iff d :
  0 <= d ->
  (LOCK_TIMEOUT_SECONDS < duration_cast_seconds d
   <-> (LOCK_TIMEOUT_SECONDS + 1) * STEADY_TICKS_PER_SECOND <= d).
Proof.
  intros Hd. unfold duration_cast_seconds, LOCK_TIMEOUT_SECONDS, STEADY_TICKS_PER_SECOND.
  rewrite Z.quot_div_nonneg by lia.
  pose proof (Z.div_mod d 1000000000 ltac:(lia)).
  pose proof (Z.mod_pos_bound d 1000000000 ltac:(lia)).
  lia.
Qed.

(** C4, as stated, fails between 30 and 31 seconds: client 1 holds the lock
    of "k" since tick 1000; 30.5 seconds later client 2 asks and is denied,
    and the lock table is left as it was. *)
Lemma AcquireLock_denies_after_30500_ms :
  let st := snd (AcquireLock "k" 1 (mkClocks 0 1000 1700000000000) init) in
  let c := mkClocks 30500001000 30500002000 1700000030500 in
  locks_ st !! "k" = Some (mkLockEntry 1 1000)
  /\ LOCK_TIMEOUT_SECONDS * STEADY_TICKS_PER_SECOND < now c - 1000
  /\ AcquireLock "k" 2 c st = (mkLockResult false 1700000030500, st).
Proof. repeat split. Qed.

(** C4, amended. [AcquireLock] grants and records the requester when the key
    has no lock entry; when an entry exists and the whole seconds elapsed
    since it was acquired exceed 30 (for a lock not from the future: its age
    is at least 31 seconds) the entry is replaced by one for the requester and
    the lock is granted; otherwise the lock is granted again, with the table
    unchanged, when the requester is the owner, and denied, with the state
    unchanged, in every other case. *)
Theorem AcquireLock_cases key client_id c st :
  let r := AcquireLock key client_id c st in
  (locks_ st !! key = None ->
     lr_granted (fst r) = true
     /\ locks_ (snd r) !! key = Some (mkLockEntry client_id (ctor_now c)))
  /\ (forall e, locks_ st !! key = Some e ->
        let elapsed := duration_cast_seconds (now c - acquired_at e) in
        (LOCK_TIMEOUT_SECONDS < elapsed ->
           lr_granted (fst r) = true
           /\ locks_ (snd r) !! key = Some (mkLockEntry client_id (ctor_now c)))
        /\ (elapsed <= LOCK_TIMEOUT_SECONDS -> owner_id e = client_id ->
              lr_granted (fst r) = true /\ snd r = st)
        /\ (elapsed <= LOCK_TIMEOUT_SECONDS -> owner_id e <> client_id ->
              lr_granted (fst r) = false /\ snd r = st)
        /\ (acquired_at e <= now c ->
              (LOCK_TIMEOUT_SECONDS < elapsed
               <-> (LOCK_TIMEOUT_SECONDS + 1) * STEADY_TICKS_PER_SECOND
                   <= now c - acquired_at e)))
  /\ (forall k, k <> key -> locks_ (snd r) !! k = locks_ st !! k)
  /\ store_ (snd r) = store_ st.
Proof.
  intros r. subst r. unfold AcquireLock. split; [|split; [|split]].
  - intros ->. split; [done | apply lookup_insert_eq].
  - intros e ->.
    set (elapsed := duration_cast_seconds (now c - acquired_at e)).
    destruct (Z.gtb_spec elapsed LOCK_TIMEOUT_SECONDS) as [Hgt|Hle];
      (split; [|split; [|split]]).
    + intros _. split; [done | apply lookup_insert_eq].
    + lia.
    + lia.
    + intros Hnow. apply timed_out_iff. lia.
    + lia.
    + intros _ Hown. by rewrite (proj2 (Z.eqb_eq _ _) Hown).
    + intros _ Hown. by rewrite (proj2 (Z.eqb_neq _ _) Hown).
    + intros Hnow. apply timed_out_iff. lia.
  - intros k Hk. destruct (locks_ st !! key) as [e|] eqn:He; simpl.
    + destruct (_ >? _); simpl.
      * rewrite lookup_insert_ne by done. by rewrite lookup_delete_ne.
      * by destruct (_ =? _).
    + by rewrite lookup_insert_ne.
  - destruct (locks_ st !! key) as [e|]; simpl; [|done].
    destruct (_ >? _); [done|]. by destruct (_ =? _).
Qed.

Lemma AcquireLock_cases_witness :
  let st := snd (AcquireLock "k" 1 (mkClocks 0 1000 1700000000000) init) in
  let c := mkClocks 31000001000 31000002000 1700000031000 in
  lr_granted (fst (AcquireLock "k" 2 c st)) = true
  /\ locks_ (snd (AcquireLock "k" 2 c st)) !! "k" = Some (mkLockEntry 2 31000002000).
Proof.
  intros st c.
  destruct (AcquireLock_cases "k" 2 c st) as (_ & Hentry & _).
  destruct (Hentry (mkLockEntry 1 1000) eq_refl) as (Htimeout & _).
  apply Htimeout. reflexivity.
Defined.

(** C5. A blocking-server [Read] or [Write] succeeds exactly when the caller is
    the recorded owner of the lock of the key.  A successful [Read] returns
    the stored entry, or the empty string with timestamp 0 for an absent key;
    a successful [Write] stores the value with [max client_ts s], [s] being
    the timestamp the generator has just produced, and returns that timestamp.
    A caller that does not own the lock gets [success = false] and the state
    of the replica is unchanged. *)
Theorem Blocking_Read_Write_need_lock key val client_ts client_id current rejected_ts st :
  let rd := Read key client_id st in
  let wr := Write key val client_ts client_id current rejected_ts st in
  let s := fst (GenerateTimestamp current st) in
  (rr_success rd = true <-> owns_lock key client_id st)
  /\ (wr_success (fst wr) = true <-> owns_lock key client_id st)
  /\ (owns_lock key client_id st ->
        rd = match store_ st !! key with
             | Some e => mkReadResult (value e) (timestamp e) true
             | None => mkReadResult EmptyString 0 true
             end
        /\ wr_timestamp (fst wr) = Z.max client_ts s
        /\ store_ (snd wr) !! key = Some (mkValueEntry val (Z.max client_ts s))
        /\ (forall k, k <> key -> store_ (snd wr) !! k = store_ st !! k)
        /\ locks_ (snd wr) = locks_ st)
  /\ (~ owns_lock key client_id st ->
        rr_success rd = false /\ wr_success (fst wr) = false /\ snd wr = st).
Proof.
  intros rd wr s. subst rd wr s. unfold Read, Write.
  rewrite <- holds_lock_owns.
  destruct (holds_lock key client_id st); simpl.
  - split; [|split; [|split]].
    + by destruct (store_ st !! key).
    + done.
    + intros _. repeat split.
      * apply lookup_insert_eq.
      * intros k Hk. by rewrite lookup_insert_ne.
    + done.
  - split; [|split; [|split]]; try done.
Qed.

Lemma Blocking_Read_Write_need_lock_witness :
  let st := run init
              [ReqAcquireLock "k" 1 (mkClocks 0 1000 1700000000000);
               ReqWrite "k" "v" 1700000000001 1 1700000000000 0] in
  Read "k" 1 st = mkReadResult "v" 1700000000001 true
  /\ rr_success (Read "k" 2 st) = false
  /\ snd (Write "k" "w" 1700000000009 2 1700000000005 0 st) = st.
Proof.
  intros st.
  destruct (Blocking_Read_Write_need_lock "k" "w" 1700000000009 1 1700000000005 0 st)
    as (_ & _ & Howner & _).
  destruct (Blocking_Read_Write_need_lock "k" "w" 1700000000009 2 1700000000005 0 st)
    as (_ & _ & _ & Hother).
  assert (Hown : owns_lock "k" 1 st) by (exists (mkLockEntry 1 1000); split; reflexivity).
  assert (Hnot : ~ owns_lock "k" 2 st) by (intros (e & [= <-] & [=])).
  destruct (Howner Hown) as (Hrd & _). destruct (Hother Hnot) as (Hrd' & _ & Hst).
  split; [exact Hrd | split; [exact Hrd' | exact Hst]].
Defined.

(** Re-granting a lock to its owner, any number of times before the timeout
    measured from the original acquisition, leaves the replica as it was. *)
Lemma AcquireLock_regrant_run key e st (cs : list clocks) :
  locks_ st !! key = Some e ->
  Forall (fun c => duration_cast_seconds (now c - acquired_at e) <= LOCK_TIMEOUT_SECONDS) cs ->
  run st (map (ReqAcquireLock key (owner_id e)) cs) = st
  /\ Forall (fun c => lr_granted (fst (AcquireLock key (owner_id e) c st)) = true) cs.
Proof.
  intros He Hcs. unfold run. induction Hcs as [|c cs Hc _ IH]; [done|].
  assert (Hstep : AcquireLock key (owner_id e) c st = (mkLockResult true (wall c), st)).
  { unfold AcquireLock. rewrite He.
    destruct (Z.gtb_spec (duration_cast_seconds (now c - acquired_at e)) LOCK_TIMEOUT_SECONDS);
      [lia|]. by rewrite Z.eqb_refl. }
  simpl. rewrite Hstep. simpl. destruct IH as [IH1 IH2]. split; [done|].
  constructor; [by rewrite Hstep | done].
Qed.

(** C10, as stated, fails at 30 seconds: client 1 holds the lock of "k"
    since tick 1000 and acquires it again 10 and 20 seconds later; client 2,
    asking exactly 30 seconds after the first grant, and again 30.5 seconds
    after it, is denied, and the replica is left as it was. *)
Lemma AcquireLock_regrant_denies_at_30_s :
  let st := snd (AcquireLock "k" 1 (mkClocks 0 1000 1700000000000) init) in
  let again := [mkClocks 10000001000 10000002000 1700000010000;
                mkClocks 20000001000 20000002000 1700000020000] in
  let st' := run st (map (ReqAcquireLock "k" 1) again) in
  let c := mkClocks 30000001000 30000002000 1700000030000 in
  let c' := mkClocks 30500001000 30500002000 1700000030500 in
  locks_ st' !! "k" = Some (mkLockEntry 1 1000)
  /\ now c - 1000 = LOCK_TIMEOUT_SECONDS * STEADY_TICKS_PER_SECOND
  /\ AcquireLock "k" 2 c st' = (mkLockResult false 1700000030000, st')
  /\ AcquireLock "k" 2 c' st' = (mkLockResult false 1700000030500, st').
Proof. repeat split. Qed.

(** C10, amended. When [AcquireLock] grants a lock again to the client that
    owns it, the lock entry, and with it [acquired_at], is left as it was:
    the timeout keeps running from the original acquisition.  So after any
    number of such re-acquisitions before the timeout, another client is
    still denied as long as the whole seconds elapsed since the original
    acquisition do not exceed 30, and is granted the lock, taking the entry
    over, once they do; for a lock not from the future that is from 31
    seconds after the first grant on. *)
Theorem AcquireLock_regrant_keeps_acquired_at key e other st (cs : list clocks) (c : clocks) :
  locks_ st !! key = Some e ->
  Forall (fun c' => duration_cast_seconds (now c' - acquired_at e) <= LOCK_TIMEOUT_SECONDS) cs ->
  LOCK_TIMEOUT_SECONDS < duration_cast_seconds (now c - acquired_at e) ->
  let st' := run st (map (ReqAcquireLock key (owner_id e)) cs) in
  Forall (fun c' => lr_granted (fst (AcquireLock key (owner_id e) c' st)) = true) cs
  /\ locks_ st' !! key = Some e
  /\ st' = st
  /\ lr_granted (fst (AcquireLock key other c st')) = true
  /\ locks_ (snd (AcquireLock key other c st')) !! key = Some (mkLockEntry other (ctor_now c))
  /\ (forall c0, other <> owner_id e ->
        duration_cast_seconds (now c0 - acquired_at e) <= LOCK_TIMEOUT_SECONDS ->
        AcquireLock key other c0 st' = (mkLockResult false (wall c0), st'))
  /\ (acquired_at e <= now c ->
        (LOCK_TIMEOUT_SECONDS + 1) * STEADY_TICKS_PER_SECOND <= now c - acquired_at e).
Proof.
  intros He Hcs Hc st'.
  destruct (AcquireLock_regrant_run key e st cs He Hcs) as [Hrun Hgr].
  subst st'. rewrite Hrun. repeat split; try done.
  - unfold AcquireLock. rewrite He.
    by rewrite (proj2 (Z.gtb_lt _ _) Hc).
  - unfold AcquireLock. rewrite He.
    rewrite (proj2 (Z.gtb_lt _ _) Hc). simpl. apply lookup_insert_eq.
  - intros c0 Hother Hc0. unfold AcquireLock. rewrite He.
    destruct (Z.gtb_spec (duration_cast_seconds (now c0 - acquired_at e)) LOCK_TIMEOUT_SECONDS);
      [lia|].
    by rewrite (proj2 (Z.eqb_neq _ _) (not_eq_sym Hother)).
  - intros Hnow. apply timed_out_iff; [lia | done].
Qed.

Lemma AcquireLock_regrant_keeps_acquired_at_witness :
  let st := snd (AcquireLock "k" 1 (mkClocks 0 1000 1700000000000) init) in
  let again := [mkClocks 10000001000 10000002000 1700000010000;
                mkClocks 20000001000 20000002000 1700000020000;
                mkClocks 30000001000 30000002000 1700000030000] in
  let c := mkClocks 31000001000 31000002000 1700000031000 in
  let st' := run st (map (ReqAcquireLock "k" 1) again) in
  locks_ st' !! "k" = Some (mkLockEntry 1 1000)
  /\ lr_granted (fst (AcquireLock "k" 2 c st')) = true
  /\ locks_ (snd (AcquireLock "k" 2 c st')) !! "k" = Some (mkLockEntry 2 31000002000).
Proof.
  intros st again c st'.
  assert (Hcs : Forall (fun c' => duration_cast_seconds (now c' - 1000) <= LOCK_TIMEOUT_SECONDS) again).
  { repeat constructor; by vm_compute. }
  destruct (AcquireLock_regrant_keeps_acquired_at "k" (mkLockEntry 1 1000) 2 st again c
              eq_refl Hcs eq_refl) as (_ & Hkept & _ & Hgranted & Howner & _).
  split; [exact Hkept | split; [exact Hgranted | exact Howner]].
Defined.

End BlockingServer.

(** ** Configuration *)

(** C9, as stated, fails: a single server with read and write quorum 2 passes
    validation, without any diagnostic. *)
Lemma Validate_accepts_quorum_above_server_count :
  Config.Validate
    (Config.mk [Config.mkServerInfo 0 "localhost" 5001] Config.ABD 2 2 1 0 0)
  = (true, []).
Proof. reflexivity. Qed.

(** C9, amended. [Validate] fails exactly for an empty server list or a
    quorum that is not positive, and then prints the matching error only; a
    quorum larger than the number of servers is not looked at.  When it
    succeeds it warns about consistency exactly when the sum of the quorums
    does not exceed the number of servers. *)
Theorem Validate_verdict c :
  (fst (Config.Validate c) = true
   <-> Config.servers_ c <> [] /\ 0 < Config.read_quorum_ c /\ 0 < Config.write_quorum_ c)
  /\ (Config.servers_ c = [] -> Config.Validate c = (false, [Config.ErrorNoServers]))
  /\ (Config.servers_ c <> [] ->
      Config.read_quorum_ c <= 0 \/ Config.write_quorum_ c <= 0 ->
      Config.Validate c = (false, [Config.ErrorInvalidQuorum]))
  /\ (fst (Config.Validate c) = true ->
      (In Config.WarningConsistency (snd (Config.Validate c))
       <-> wrap32 (Config.read_quorum_ c + Config.write_quorum_ c)
           <= wrap32 (Config.size c))
      /\ (in_int32 (Config.read_quorum_ c + Config.write_quorum_ c) ->
          in_int32 (Config.size c) ->
          (In Config.WarningConsistency (snd (Config.Validate c))
           <-> Config.read_quorum_ c + Config.write_quorum_ c <= Config.size c))).
Proof.
  unfold Config.Validate.
  destruct (Config.servers_ c) as [|s l] eqn:Hs.
  { simpl. split; [|split; [|split]]; try done. split; [done|]. by intros ([] & _). }
  destruct (Z.leb_spec (Config.read_quorum_ c) 0) as [Hr|Hr];
    [|destruct (Z.leb_spec (Config.write_quorum_ c) 0) as [Hw|Hw]]; simpl.
  - split; [|split; [|split]]; try done. split; [done | lia].
  - split; [|split; [|split]]; try done. split; [done | lia].
  - split; [|split; [|split]]; try done.
    + intros _ [?|?]; lia.
    + intros _.
      assert (Hin : In Config.WarningConsistency
                      ((if (Config.num_replicas_ c >? 0)
                            && negb (to_size_t (Config.num_replicas_ c) =? Config.size c)
                        then [Config.WarningNumReplicas] else [])
                       ++ (if wrap32 (Config.read_quorum_ c + Config.write_quorum_ c)
                              <=? wrap32 (Config.size c)
                           then [Config.WarningConsistency] else []))
                    <-> wrap32 (Config.read_quorum_ c + Config.write_quorum_ c)
                        <= wrap32 (Config.size c)).
      { rewrite in_app_iff.
        destruct (_ && _);
          destruct (Z.leb_spec (wrap32 (Config.read_quorum_ c + Config.write_quorum_ c))
                      (wrap32 (Config.size c))); simpl; intuition (try discriminate; lia). }
      split; [exact Hin|]. intros H1 H2. rewrite Hin, !wrap32_id by done. done.
Qed.

(** ** The ABD client engine *)

Section ABDClient.
Import ABDClientImpl.

(** Without overflow [UpdateTimestamp] leaves the clock above its argument
    and above its previous value. *)
Lemma ABD_UpdateTimestamp_above t clock :
  in_int64 t -> in_int64 clock -> t < INT64_MAX -> clock < INT64_MAX ->
  UpdateTimestamp t clock = Z.max t clock + 1.
Proof.
  intros Ht Hc Htlt Hclt. unfold UpdateTimestamp.
  destruct (Z.gtb_spec t clock); rewrite wrap64_succ by done; lia.
Qed.

(** The timestamp a [Write] issues is the successor of the clock, and is the
    first thing the operation puts in the history. *)
Lemma ABD_Write_issues_successor cfg writes clock :
  to_size_t (Config.write_quorum_ cfg) <= Config.size cfg ->
  in_int64 clock -> clock < INT64_MAX ->
  exists tr, snd (Write cfg writes clock) = Issued (clock + 1) :: tr.
Proof.
  intros Hq Hc Hlt. unfold Write.
  destruct (Z.gtb_spec (to_size_t (Config.write_quorum_ cfg)) (Config.size cfg)); [lia|].
  destruct (absorb_replies _ _) as [c tr]. simpl.
  rewrite wrap64_succ by done. eauto.
Qed.

(** The greatest element is not below any element of the vector. *)
Lemma max_element_from_ge_first largest l :
  timestamp largest <= timestamp (max_element_from largest l).
Proof.
  revert largest. induction l as [|x l IH]; intros largest; simpl; [lia|].
  destruct (Z.ltb_spec (timestamp largest) (timestamp x)).
  - specialize (IH x). lia.
  - apply IH.
Qed.

Lemma max_element_from_upper largest l r :
  r = largest \/ In r l ->
  timestamp r <= timestamp (max_element_from largest l).
Proof.
  intros [->|Hin]; [apply max_element_from_ge_first|].
  revert largest. induction l as [|x l IH]; intros largest; [done|].
  simpl. destruct Hin as [->|Hin]; [|by apply IH].
  destruct (Z.ltb_spec (timestamp largest) (timestamp r)).
  - apply max_element_from_ge_first.
  - pose proof (max_element_from_ge_first largest l). lia.
Qed.

(** The write-back timestamp of a [Read] is above the timestamp of
    [max_response], hence above every response collected, and above the
    clock. *)
Lemma ABD_write_back_timestamp_above responses max_response clock :
  max_element responses = Some max_response ->
  in_int64 clock -> in_int64 (timestamp max_response) ->
  clock < INT64_MAX -> timestamp max_response < INT64_MAX ->
  let write_timestamp := wrap64 (Z.max (timestamp max_response) clock + 1) in
  clock < write_timestamp
  /\ Forall (fun r => timestamp r < write_timestamp) responses.
Proof.
  intros Hmax Hc Hm Hclt Hmlt write_timestamp. subst write_timestamp.
  rewrite wrap64_id by (unfold in_int64 in *; lia).
  split; [lia|]. apply Forall_forall. intros r Hr%list_elem_of_In.
  destruct responses as [|x l]; [done|]. injection Hmax as <-.
  pose proof (max_element_from_upper x l r) as Hup.
  destruct Hr as [->|Hr]; [specialize (Hup (or_introl eq_refl))
                          | specialize (Hup (or_intror Hr))]; lia.
Qed.

(** C2. A timestamp taken from a reply is not always below the next timestamp
    issued.  Three replicas, R = W = 2, client clock 1700000000000: a [Read]
    gets one answer, stamped 1700000060000, and no other, and fails for want
    of a read quorum without touching the clock; the [Write] that follows
    issues 1700000000001. *)
Theorem ABD_client_issues_below_observed :
  let cfg := Config.mk [Config.mkServerInfo 0 "localhost" 5001;
                        Config.mkServerInfo 1 "localhost" 5002;
                        Config.mkServerInfo 2 "localhost" 5003]
               Config.ABD 2 2 3 0 0 in
  let reads := [mkReadResponse "x" 1700000060000 true] in
  let acks := [Some 1700000000001; Some 1700000000001; Some 1700000000001] in
  Read cfg reads [] 1700000000000
  = (ReadFail, 1700000000000, [Observed 1700000060000])
  /\ snd (run cfg 1700000000000 [OpRead reads []; OpWrite acks])
     = [Observed 1700000060000; Issued 1700000000001;
        Observed 1700000000001; Observed 1700000000001; Observed 1700000000001]
  /\ issued_fresh (snd (run cfg 1700000000000 [OpRead reads []; OpWrite acks])) = false.
Proof. repeat split; reflexivity. Qed.

End ABDClient.

(** ** The blocking client engine *)

Section BlockingClient.
Import BlockingClientImpl.

Lemma released_replicas_app tr1 tr2 :
  released_replicas (tr1 ++ tr2) = released_replicas tr1 ++ released_replicas tr2.
Proof. apply omap_app. Qed.

Lemma released_replicas_release_all l : released_replicas (release_all l) = l.
Proof.
  unfold released_replicas, release_all. induction l as [|i l IH]; [done|].
  simpl. f_equal. exact IH.
Qed.

Lemma released_replicas_acquire l : released_replicas (map RpcAcquireLock l) = [].
Proof. unfold released_replicas. by induction l. Qed.

Lemma released_replicas_write_locked ts writes locked written clock :
  released_replicas (snd (write_locked ts writes locked written clock)) = [].
Proof.
  revert written clock. induction locked as [|idx l IH]; intros written clock; [done|].
  simpl. destruct (default None (writes !! idx)).
  - specialize (IH (wrap32 (written + 1)) (UpdateTimestamp z clock)).
    by destruct (write_locked _ _ _ _ _) as [[w c] tr].
  - specialize (IH written clock).
    by destruct (write_locked _ _ _ _ _) as [[w c] tr].
Qed.

(** Whatever the writes answer, a [Write] that passes the pre-flight test
    sends [ReleaseLock] to the replicas of [locked_server_indices], in
    order, and to no other. *)
Lemma Blocking_Write_releases_collected cfg locks writes clock :
  to_size_t (Config.write_quorum_ cfg) <= Config.size cfg ->
  released_replicas (snd (Write cfg locks writes clock))
  = collect_locks (Config.write_quorum_ cfg) 0
      (map (fun i => default false (locks !! i)) (seq 0 (length (Config.servers_ cfg)))) [].
Proof.
  intros Hq. unfold Write.
  destruct (Z.gtb_spec (to_size_t (Config.write_quorum_ cfg)) (Config.size cfg)); [lia|].
  set (locked := collect_locks _ _ _ _).
  destruct (_ <? _).
  - simpl. by rewrite released_replicas_app, released_replicas_acquire,
      released_replicas_release_all.
  - pose proof (released_replicas_write_locked (wrap64 (clock + 1)) writes locked 0
                  (UpdateTimestamp (wrap64 (clock + 1)) clock)) as Hw.
    destruct (write_locked _ _ _ _ _) as [[w c] tr]. simpl in *.
    by rewrite !released_replicas_app, released_replicas_acquire, Hw,
      released_replicas_release_all.
Qed.

(** C6. A grant that is answered after the quorum is reached is never
    released.  Three unlocked replicas, W = 2, client 7: all three grant the
    lock of "k"; the client collects replicas 0 and 1, writes to them with
    success, and releases 0 and 1; replica 2 stays locked by client 7. *)
Theorem Blocking_Write_leaves_late_grant_locked :
  let cfg := Config.mk [Config.mkServerInfo 0 "localhost" 5001;
                        Config.mkServerInfo 1 "localhost" 5002;
                        Config.mkServerInfo 2 "localhost" 5003]
               Config.BLOCKING 2 2 3 0 0 in
  let c := BlockingProtocol.mkClocks 1000 1000 1700000000000 in
  let replicas := [BlockingProtocol.init; BlockingProtocol.init; BlockingProtocol.init] in
  let locks := lock_replies "k" 7 c replicas in
  let acks := [Some 1700000000001; Some 1700000000001; Some 1700000000001] in
  let r := Write cfg locks acks 1700000000000 in
  let after := foldl (deliver "k" "v" 7 c) replicas (snd r) in
  fst (fst r) = true
  /\ granting_replicas cfg locks = [0; 1; 2]%nat
  /\ released_replicas (snd r) = [0; 1]%nat
  /\ map (BlockingProtocol.GetLockOwner "k") after = [-1; -1; 7]
  /\ map (BlockingProtocol.GetValue "k") after = ["v"; "v"; EmptyString]%string.
Proof. repeat split; reflexivity. Qed.

End BlockingClient.

(** * Further properties *)

(** ** The ABD server register, over runs *)

Section ABDServerRuns.
Import ABDProtocol.

Lemma ABD_step_other_key key st r :
  writes_key key r = false -> store_ (step st r) !! key = store_ st !! key.
Proof.
  destruct r as [k ts|k v ts cur]; simpl; [done|].
  intros Hk%bool_decide_eq_false. by rewrite lookup_insert_ne.
Qed.

Lemma ABD_run_other_key key rs st :
  Forall (fun r => writes_key key r = false) rs ->
  store_ (run st rs) !! key = store_ st !! key.
Proof.
  unfold run. intros Hrs. revert st.
  induction Hrs as [|r rs Hr _ IH]; intros st; [done|].
  simpl. rewrite IH. by apply ABD_step_other_key.
Qed.

(** X1. An ABD replica returns what it was last told to write: after
    [Write key val], followed by any requests none of which writes [key], a
    [Read] of [key] succeeds with [val] and with the timestamp that [Write]
    returned, whatever the store held before. *)
Theorem ABD_Read_after_Write key val client_ts current st rs client_ts' :
  Forall (fun r => writes_key key r = false) rs ->
  Read key client_ts' (run (snd (Write key val client_ts current st)) rs)
  = mkReadResult val (wr_timestamp (fst (Write key val client_ts current st))) true.
Proof.
  intros Hrs. unfold Read. rewrite ABD_run_other_key by done.
  simpl. by rewrite lookup_insert_eq.
Qed.

Lemma ABD_Read_after_Write_witness :
  Read "a" 0
    (run (snd (Write "a" "1" 5 1700000000000 init))
       [ReqWrite "b" "2" 6 1700000000001; ReqRead "a" 0])
  = mkReadResult "1" 1700000000000 true.
Proof.
  apply (ABD_Read_after_Write "a" "1" 5 1700000000000 init
           [ReqWrite "b" "2" 6 1700000000001; ReqRead "a" 0] 0).
  repeat constructor.
Defined.

Lemma ABD_step_generator bound st r rs :
  in_int64 (last_timestamp_ st) ->
  last_timestamp_ st < bound -> readings_below bound (r :: rs) ->
  bound + Z.of_nat (length (r :: rs)) <= INT64_MAX ->
  in_int64 (last_timestamp_ (step st r))
  /\ last_timestamp_ (step st r) < bound + 1
  /\ last_timestamp_ st + (if is_write r then 1 else 0) <= last_timestamp_ (step st r).
Proof.
  intros Hin Hlast Hrs Hb. inversion_clear Hrs as [|? ? Hr _].
  simpl length in Hb.
  destruct r as [k ts|k v ts cur]; simpl.
  { unfold in_int64 in *. lia. }
  destruct (Z.gtb_spec cur (last_timestamp_ st)).
  - unfold in_int64 in *. lia.
  - rewrite wrap64_succ by (unfold in_int64 in *; lia).
    unfold in_int64 in *. lia.
Qed.

(** X2. The generator of a replica advances by at least one with every
    [Write] it handles, whatever the wall clock does, be it going backwards:
    absent overflow, after a run its state exceeds the initial one by at
    least the number of writes handled. *)
Theorem ABD_generator_advances bound st rs :
  in_int64 (last_timestamp_ st) ->
  last_timestamp_ st < bound -> readings_below bound rs ->
  bound + Z.of_nat (length rs) <= INT64_MAX ->
  last_timestamp_ st + Z.of_nat (length (filter (fun r => is_write r) rs))
  <= last_timestamp_ (run st rs).
Proof.
  unfold run. revert bound st. induction rs as [|r rs IH]; intros bound st Hin Hlast Hrs Hb.
  { simpl. lia. }
  destruct (ABD_step_generator bound st r rs Hin Hlast Hrs Hb) as (Hin' & Hlast' & Hstep).
  assert (Hrs' : readings_below (bound + 1) rs).
  { inversion_clear Hrs as [|? ? _ Hrest]. eapply Forall_impl; [exact Hrest|].
    intros [|]; simpl; lia. }
  specialize (IH (bound + 1) (step st r) Hin' Hlast' Hrs').
  simpl length in Hb. specialize (IH ltac:(lia)).
  simpl foldl. rewrite filter_cons.
  destruct (is_write r); case_decide; try done; simpl length in *; lia.
Qed.

Lemma ABD_generator_advances_witness :
  0 + 2 <= last_timestamp_
             (run init [ReqWrite "a" "1" 0 1700000000005; ReqRead "a" 0;
                        ReqWrite "a" "2" 0 1700000000000]).
Proof.
  apply (ABD_generator_advances 1700000000006 init
           [ReqWrite "a" "1" 0 1700000000005; ReqRead "a" 0;
            ReqWrite "a" "2" 0 1700000000000]).
  - by vm_compute.
  - reflexivity.
  - repeat constructor.
  - by vm_compute.
Defined.

Lemma ABD_step_store_behind bound st r rs :
  store_behind_generator st -> in_int64 (last_timestamp_ st) ->
  last_timestamp_ st < bound -> readings_below bound (r :: rs) ->
  clients_behind (r :: rs) ->
  bound + Z.of_nat (length (r :: rs)) <= INT64_MAX ->
  store_behind_generator (step st r)
  /\ forall key, GetTimestamp key st <= GetTimestamp key (step st r).
Proof.
  intros [H0 Hinv] Hin Hlast Hrs Hcb Hb.
  inversion_clear Hrs as [|? ? Hr _]. inversion_clear Hcb as [|? ? Hc _].
  simpl length in Hb.
  destruct r as [k ts|k v ts cur]; [done|].
  assert (Hgen : last_timestamp_ st < fst (GenerateTimestamp cur st)
                 /\ cur <= fst (GenerateTimestamp cur st)).
  { unfold GenerateTimestamp; simpl.
    destruct (Z.gtb_spec cur (last_timestamp_ st)); [lia|].
    rewrite wrap64_succ by (unfold in_int64 in *; lia). lia. }
  destruct Hgen as [Hg1 Hg2]. simpl in *. set (s := if cur >? _ then _ else _) in *.
  split; [split|]; simpl.
  - lia.
  - intros k' e. destruct (decide (k = k')) as [->|Hne].
    + rewrite lookup_insert_eq. intros [= <-]. simpl. lia.
    + rewrite lookup_insert_ne by done. intros He%Hinv. lia.
  - intros key. unfold GetTimestamp; simpl.
    destruct (decide (k = key)) as [->|Hne].
    + rewrite lookup_insert_eq. simpl.
      destruct (store_ st !! key) as [e|] eqn:He; [apply Hinv in He|]; lia.
    + by rewrite lookup_insert_ne.
Qed.

(** X3. As long as no client timestamp is ahead of the wall clock of the
    replica that handles the write, the timestamp stored for a key never
    decreases: from a state whose stored timestamps are not ahead of the
    generator (the initial state is one), and absent overflow, every key has
    after a run a timestamp at least the one it had. *)
Theorem ABD_stored_timestamp_monotone bound st rs key :
  store_behind_generator st -> in_int64 (last_timestamp_ st) ->
  last_timestamp_ st < bound -> readings_below bound rs -> clients_behind rs ->
  bound + Z.of_nat (length rs) <= INT64_MAX ->
  GetTimestamp key st <= GetTimestamp key (run st rs).
Proof.
  unfold run. revert bound st.
  induction rs as [|r rs IH]; intros bound st Hinv Hin Hlast Hrs Hcb Hb; [done|].
  destruct (ABD_step_store_behind bound st r rs Hinv Hin Hlast Hrs Hcb Hb) as [Hinv' Hmono].
  destruct (ABD_step_generator bound st r rs Hin Hlast Hrs Hb) as (Hin' & Hlast' & _).
  assert (Hrs' : readings_below (bound + 1) rs).
  { inversion_clear Hrs as [|? ? _ Hrest]. eapply Forall_impl; [exact Hrest|].
    intros [|]; simpl; lia. }
  assert (Hcb' : clients_behind rs) by (by inversion_clear Hcb).
  simpl length in Hb.
  specialize (IH (bound + 1) (step st r) Hinv' Hin' Hlast' Hrs' Hcb' ltac:(lia)).
  simpl foldl. specialize (Hmono key). lia.
Qed.

Lemma ABD_stored_timestamp_monotone_witness :
  GetTimestamp "a" (run init [ReqWrite "a" "1" 1700000000000 1700000000005])
  <= GetTimestamp "a"
       (run (run init [ReqWrite "a" "1" 1700000000000 1700000000005])
          [ReqWrite "a" "2" 1700000000001 1700000000002]).
Proof.
  apply (ABD_stored_timestamp_monotone 1700000000006
           (run init [ReqWrite "a" "1" 1700000000000 1700000000005])
           [ReqWrite "a" "2" 1700000000001 1700000000002] "a").
  - split; [by vm_compute|]. intros k e.
    destruct (decide (k = "a")) as [->|Hne].
    + intros [= <-]. by vm_compute.
    + simpl. rewrite lookup_insert_ne by done. by rewrite lookup_empty.
  - by vm_compute.
  - reflexivity.
  - repeat constructor.
  - repeat constructor. by vm_compute.
  - by vm_compute.
Defined.

End ABDServerRuns.

(** ** The blocking server register: release, exclusion, frames *)

Section BlockingServerRuns.
Import BlockingProtocol.

Lemma with_locks_id st : with_locks st (locks_ st) = st.
Proof. by destruct st. Qed.

(** X4. [ReleaseLock] succeeds exactly when the caller is the recorded owner
    of the lock of the key.  It then removes the entry, so that the key is no
    longer locked; otherwise it changes nothing.  In both cases the locks of
    other keys, the store and the generator are left alone. *)
Theorem ReleaseLock_cases key client_id st :
  let r := ReleaseLock key client_id st in
  (fst r = true <-> owns_lock key client_id st)
  /\ (owns_lock key client_id st ->
        locks_ (snd r) !! key = None
        /\ IsLocked key (snd r) = false
        /\ GetLockOwner key (snd r) = -1)
  /\ (~ owns_lock key client_id st -> snd r = st)
  /\ (forall k, k <> key -> locks_ (snd r) !! k = locks_ st !! k)
  /\ store_ (snd r) = store_ st
  /\ last_timestamp_ (snd r) = last_timestamp_ st.
Proof.
  intros r. subst r. rewrite <- holds_lock_owns.
  unfold ReleaseLock, holds_lock, IsLocked, GetLockOwner.
  destruct (locks_ st !! key) as [e|] eqn:He; [destruct (owner_id e =? client_id)|]; simpl.
  - repeat split; try done; rewrite ?lookup_delete_eq; try done.
    intros k Hk. by rewrite lookup_delete_ne.
  - repeat split; done.
  - repeat split; done.
Qed.

Lemma ReleaseLock_cases_witness :
  let st := snd (AcquireLock "k" 1 (mkClocks 0 1000 1700000000000) init) in
  IsLocked "k" st = true
  /\ IsLocked "k" (snd (ReleaseLock "k" 1 st)) = false
  /\ snd (ReleaseLock "k" 2 st) = st.
Proof.
  intros st.
  destruct (ReleaseLock_cases "k" 1 st) as (_ & Howner & _).
  destruct (ReleaseLock_cases "k" 2 st) as (_ & _ & Hother & _).
  split; [reflexivity|]. split.
  - apply Howner. exists (mkLockEntry 1 1000). split; reflexivity.
  - apply Hother. intros (e & [= <-] & [=]).
Defined.

(** X5. Acquiring the lock of an unlocked key and releasing it brings the
    replica back to the state it was in: the grant is given, the release
    succeeds, and nothing of the acquisition is left. *)
Theorem AcquireLock_ReleaseLock_restores key client_id c st :
  locks_ st !! key = None ->
  lr_granted (fst (AcquireLock key client_id c st)) = true
  /\ ReleaseLock key client_id (snd (AcquireLock key client_id c st)) = (true, st).
Proof.
  intros Hfree. unfold AcquireLock. rewrite Hfree. split; [done|].
  unfold ReleaseLock. simpl. rewrite lookup_insert_eq. simpl.
  rewrite Z.eqb_refl. f_equal. unfold with_locks. simpl.
  rewrite delete_insert_id by done. by destruct st.
Qed.

Lemma AcquireLock_ReleaseLock_restores_witness :
  ReleaseLock "k" 1 (snd (AcquireLock "k" 1 (mkClocks 0 1000 1700000000000) init))
  = (true, init).
Proof.
  apply (AcquireLock_ReleaseLock_restores "k" 1 (mkClocks 0 1000 1700000000000) init).
  reflexivity.
Defined.

Lemma lock_rejects_other_step key e st r :
  locks_ st !! key = Some e ->
  request_key r = key -> request_client r <> owner_id e -> in_time e r ->
  step st r = st.
Proof.
  intros He Hk Hc Ht. destruct r as [k cid c|k cid|k cid|k v ts cid cur rts];
    simpl in *; subst k.
  - unfold AcquireLock. rewrite He.
    destruct (Z.gtb_spec (duration_cast_seconds (now c - acquired_at e)) LOCK_TIMEOUT_SECONDS);
      [lia|].
    by rewrite (proj2 (Z.eqb_neq _ _) (not_eq_sym Hc)).
  - unfold ReleaseLock. rewrite He.
    by rewrite (proj2 (Z.eqb_neq _ _) (not_eq_sym Hc)).
  - done.
  - unfold Write, holds_lock. rewrite He.
    by rewrite (proj2 (Z.eqb_neq _ _) (not_eq_sym Hc)).
Qed.

(** X6. A lock that has not timed out shuts every other client out.  While
    the lock table holds an entry for [key], a client other than its owner is
    denied the lock (as long as the entry has not timed out), fails to read,
    to write and to release, and no sequence of such requests changes the
    state of the replica. *)
Theorem lock_excludes_other_clients key e client_id c val client_ts current rejected_ts st rs :
  locks_ st !! key = Some e ->
  client_id <> owner_id e ->
  duration_cast_seconds (now c - acquired_at e) <= LOCK_TIMEOUT_SECONDS ->
  Forall (fun r => request_key r = key /\ request_client r <> owner_id e /\ in_time e r) rs ->
  lr_granted (fst (AcquireLock key client_id c st)) = false
  /\ rr_success (Read key client_id st) = false
  /\ wr_success (fst (Write key val client_ts client_id current rejected_ts st)) = false
  /\ fst (ReleaseLock key client_id st) = false
  /\ run st rs = st.
Proof.
  intros He Hc Ht Hrs.
  assert (Hneq : (owner_id e =? client_id) = false) by (apply Z.eqb_neq; congruence).
  repeat split.
  - unfold AcquireLock. rewrite He.
    destruct (Z.gtb_spec (duration_cast_seconds (now c - acquired_at e)) LOCK_TIMEOUT_SECONDS);
      [lia|]. by rewrite Hneq.
  - unfold Read, holds_lock. by rewrite He, Hneq.
  - unfold Write, holds_lock. by rewrite He, Hneq.
  - unfold ReleaseLock. by rewrite He, Hneq.
  - unfold run. induction Hrs as [|r rs (Hk & Hcl & Hti) _ IH]; [done|].
    simpl. by rewrite (lock_rejects_other_step key e st r He Hk Hcl Hti).
Qed.

Lemma lock_excludes_other_clients_witness :
  let st := snd (AcquireLock "k" 1 (mkClocks 0 1000 1700000000000) init) in
  let c := mkClocks 30000001000 30000002000 1700000030000 in
  lr_granted (fst (AcquireLock "k" 2 c st)) = false
  /\ run st [ReqAcquireLock "k" 2 c; ReqWrite "k" "v" 5 2 1700000030001 0;
             ReqReleaseLock "k" 3; ReqRead "k" 2] = st.
Proof.
  intros st c.
  destruct (lock_excludes_other_clients "k" (mkLockEntry 1 1000) 2 c "v" 5 1700000030001 0 st
              [ReqAcquireLock "k" 2 c; ReqWrite "k" "v" 5 2 1700000030001 0;
               ReqReleaseLock "k" 3; ReqRead "k" 2])
    as (Hdenied & _ & _ & _ & Hrun).
  - reflexivity.
  - done.
  - by vm_compute.
  - repeat constructor; first [done | by vm_compute].
  - split; [exact Hdenied | exact Hrun].
Defined.

Lemma Blocking_step_frame st r k :
  k <> request_key r ->
  store_ (step st r) !! k = store_ st !! k
  /\ locks_ (step st r) !! k = locks_ st !! k.
Proof.
  intros Hk. destruct r as [k' cid c|k' cid|k' cid|k' v ts cid cur rts]; simpl in *.
  - unfold AcquireLock. destruct (locks_ st !! k') as [e|]; simpl.
    + destruct (_ >? _); simpl.
      * split; [done|]. rewrite lookup_insert_ne by done. by rewrite lookup_delete_ne.
      * by destruct (_ =? _).
    + split; [done|]. by rewrite lookup_insert_ne.
  - unfold ReleaseLock. destruct (locks_ st !! k') as [e|]; simpl; [|done].
    destruct (_ =? _); simpl; [|done]. split; [done|]. by rewrite lookup_delete_ne.
  - done.
  - unfold Write. destruct (holds_lock k' cid st); simpl; [|done].
    split; [|done]. by rewrite lookup_insert_ne.
Qed.

(** X7. Requests on one key do not disturb another: whatever requests a
    blocking replica handles, the value, the timestamp and the lock entry of
    a key that none of them names are the ones it had. *)
Theorem Blocking_run_frame st rs k :
  Forall (fun r => request_key r <> k) rs ->
  store_ (run st rs) !! k = store_ st !! k
  /\ locks_ (run st rs) !! k = locks_ st !! k.
Proof.
  unfold run. intros Hrs. revert st.
  induction Hrs as [|r rs Hr _ IH]; intros st; [done|].
  simpl. destruct (IH (step st r)) as [-> ->].
  apply Blocking_step_frame. congruence.
Qed.

Lemma Blocking_run_frame_witness :
  let st := run init [ReqAcquireLock "a" 1 (mkClocks 0 1000 1700000000000);
                      ReqWrite "a" "1" 5 1 1700000000001 0] in
  let rs := [ReqAcquireLock "b" 2 (mkClocks 2000 3000 1700000000002);
             ReqWrite "b" "2" 6 2 1700000000003 0; ReqReleaseLock "b" 2] in
  store_ (run st rs) !! "a" = Some (mkValueEntry "1" 1700000000001)
  /\ locks_ (run st rs) !! "a" = Some (mkLockEntry 1 1000).
Proof.
  intros st rs.
  destruct (Blocking_run_frame st rs "a") as [Hs Hl].
  - repeat constructor; done.
  - split; [rewrite Hs | rewrite Hl]; reflexivity.
Defined.

(** X8. The lock table and the store are kept apart: a run without [Write]
    leaves the store and the generator as they were, and a run without
    [AcquireLock] and [ReleaseLock] leaves the lock table as it was. *)
Theorem Blocking_run_separation st rs :
  (Forall (fun r => is_write r = false) rs ->
     store_ (run st rs) = store_ st
     /\ last_timestamp_ (run st rs) = last_timestamp_ st)
  /\ (Forall (fun r => is_lock_request r = false) rs ->
        locks_ (run st rs) = locks_ st).
Proof.
  unfold run. split; intros Hrs; revert st;
    induction Hrs as [|r rs Hr _ IH]; intros st; try done; simpl.
  - destruct (IH (step st r)) as [-> ->].
    destruct r as [k cid c|k cid|k cid|k v ts cid cur rts]; simpl in *; try done.
    + unfold AcquireLock. destruct (locks_ st !! k) as [e|]; simpl; [|done].
      destruct (_ >? _); [done|]. by destruct (_ =? _).
    + unfold ReleaseLock. destruct (locks_ st !! k) as [e|]; simpl; [|done].
      by destruct (_ =? _).
  - rewrite IH.
    destruct r as [k cid c|k cid|k cid|k v ts cid cur rts]; simpl in *; try done.
    unfold Write. by destruct (holds_lock k cid st).
Qed.

Lemma Blocking_run_separation_witness :
  let st := run init [ReqAcquireLock "a" 1 (mkClocks 0 1000 1700000000000);
                      ReqWrite "a" "1" 5 1 1700000000001 0] in
  store_ (run st [ReqReleaseLock "a" 1;
                  ReqAcquireLock "a" 2 (mkClocks 2000 3000 1700000000002)])
  = store_ st
  /\ locks_ (run st [ReqWrite "a" "2" 6 1 1700000000003 0; ReqRead "a" 1]) = locks_ st.
Proof.
  intros st. split.
  - apply (Blocking_run_separation st
             [ReqReleaseLock "a" 1;
              ReqAcquireLock "a" 2 (mkClocks 2000 3000 1700000000002)]).
    repeat constructor.
  - apply (Blocking_run_separation st
             [ReqWrite "a" "2" 6 1 1700000000003 0; ReqRead "a" 1]).
    repeat constructor.
Defined.

End BlockingServerRuns.

(** ** Helpers: timestamps and addresses *)

Section Helpers.
Import Utils.

(** X9. [TimestampGenerator::Generate] is strictly increasing as long as
    the sequence number stays below 1000: for clock readings and a last
    timestamp between 0 and 9 * 10^15, the timestamp of a call is strictly
    smaller than that of the next call whenever the sequence number left by
    the first is below 1000, also when the clock stands still or goes
    backwards. *)
Theorem Generate_strictly_increasing c1 c2 g :
  0 <= Utils.last_timestamp_ g <= 9000000000000000 ->
  0 <= c1 <= 9000000000000000 -> 0 <= c2 <= 9000000000000000 ->
  0 <= sequence_ g < INT32_MAX ->
  sequence_ (snd (Generate c1 g)) < 1000 ->
  fst (Generate c1 g) < fst (Generate c2 (snd (Generate c1 g))).
Proof.
  intros Hl H1 H2 Hs Hs1. unfold Generate in *. simpl in *.
  assert (Hw64 : forall z, 0 <= z <= 9000000000001000 * 1000 -> wrap64 z = z).
  { intros z Hz. apply wrap64_id. unfold in_int64, INT64_MIN, INT64_MAX. lia. }
  assert (Hw32 : forall z, 0 <= z <= INT32_MAX -> wrap32 z = z).
  { intros z Hz. apply wrap32_id. unfold in_int32, INT32_MIN, INT32_MAX in *. lia. }
  destruct (Z.gtb_spec c1 (Utils.last_timestamp_ g)) as [Hc1|Hc1]; simpl in *.
  - destruct (Z.gtb_spec c2 c1); simpl;
      rewrite ?Hw32 by (unfold INT32_MAX; lia);
      repeat match goal with
             | |- context [wrap64 ?z] => rewrite (Hw64 z) by lia
             end; lia.
  - rewrite (Hw32 (sequence_ g + 1)) in * by lia.
    destruct (Z.gtb_spec c2 (Utils.last_timestamp_ g)); simpl;
      rewrite ?Hw32 by (unfold INT32_MAX; lia);
      repeat match goal with
             | |- context [wrap64 ?z] => rewrite (Hw64 z) by lia
             end; lia.
Qed.

Lemma Generate_strictly_increasing_witness :
  fst (Generate 1700000000000 init)
  < fst (Generate 1699999999999 (snd (Generate 1700000000000 init))).
Proof.
  apply (Generate_strictly_increasing 1700000000000 1699999999999 init);
    vm_compute; try split; congruence.
Defined.

(** X10. The uniqueness of [Generate] ends with the thousandth call of one
    millisecond: when a call leaves the sequence number at 1000 (it was 999
    and the clock had not advanced), the first call of the next millisecond
    returns the very same timestamp. *)
Theorem Generate_repeats_after_1000 last c1 :
  0 <= last <= 9000000000000000 -> c1 <= last ->
  let g := mkTimestampGenerator last 999 in
  sequence_ (snd (Generate c1 g)) = 1000
  /\ fst (Generate (last + 1) (snd (Generate c1 g))) = fst (Generate c1 g).
Proof.
  intros Hl Hc g. subst g. unfold Generate. simpl.
  destruct (Z.gtb_spec c1 last); [lia|]. simpl.
  destruct (Z.gtb_spec (last + 1) last); [|lia]. simpl.
  change (wrap32 (999 + 1)) with 1000. split; [done|].
  repeat match goal with
         | |- context [wrap64 ?z] =>
             rewrite (wrap64_id z) by (unfold in_int64, INT64_MIN, INT64_MAX; lia)
         end.
  lia.
Qed.

Lemma Generate_repeats_after_1000_witness :
  let g := mkTimestampGenerator 1700000000000 999 in
  fst (Generate 1700000000001 (snd (Generate 1700000000000 g)))
  = fst (Generate 1700000000000 g).
Proof.
  intros g.
  apply (Generate_repeats_after_1000 1700000000000 1700000000000);
    vm_compute; try split; congruence.
Defined.

Lemma find_app_colon host rest :
  find ":"%char host = None ->
  find ":"%char (host ++ String ":"%char rest) = Some (String.length host).
Proof.
  induction host as [|a host IH]; simpl; [done|].
  destruct (Ascii.eqb a ":"%char); [done|].
  destruct (find ":"%char host); [done|]. intros _. by rewrite IH.
Qed.

Lemma substr_to_app host rest : substr_to (String.length host) (host ++ rest) = host.
Proof.
  induction host as [|a host IH]; simpl; [by destruct rest|]. by rewrite IH.
Qed.

Lemma substr_from_app host rest :
  substr_from (String.length host + 1) (host ++ String ":"%char rest) = rest.
Proof. induction host as [|a host IH]; simpl; [by destruct rest|]. done. Qed.

Lemma digit_prefix_uint d :
  digit_prefix (NilEmpty.string_of_uint d) = NilEmpty.string_of_uint d.
Proof. induction d; simpl; by rewrite ?IHd. Qed.

Lemma skip_space_uint d :
  skip_space (NilEmpty.string_of_uint d) = NilEmpty.string_of_uint d.
Proof. by destruct d. Qed.

Lemma uint_string_nonempty p :
  exists a s, NilEmpty.string_of_uint (Pos.to_uint p) = String a s /\ isdigit a = true.
Proof.
  pose proof (DecimalPos.Unsigned.to_uint_nonnil p) as Hnil.
  destruct (Pos.to_uint p); [done|..]; simpl; eauto.
Qed.

(** [stoi] reads back what [to_string] prints. *)
Lemma stoi_to_string p : in_int32 p -> stoi (to_string p) = Some p.
Proof.
  intros Hp. unfold to_string.
  pose proof (DecimalZ.of_to p) as Hof.
  destruct p as [|q|q]; [done|..]; simpl in *.
  - destruct (uint_string_nonempty q) as (a & s & Hs & Ha).
    unfold NilZero.string_of_uint.
    assert (Hstr : match Pos.to_uint q with
                   | Decimal.Nil => "0"%string
                   | _ => NilEmpty.string_of_uint (Pos.to_uint q)
                   end = NilEmpty.string_of_uint (Pos.to_uint q)).
    { pose proof (DecimalPos.Unsigned.to_uint_nonnil q). by destruct (Pos.to_uint q). }
    rewrite Hstr. unfold stoi. rewrite skip_space_uint.
    assert (Hsign : match NilEmpty.string_of_uint (Pos.to_uint q) with
                    | String "-"%char rest => (true, rest)
                    | String "+"%char rest => (false, rest)
                    | _ => (false, NilEmpty.string_of_uint (Pos.to_uint q))
                    end = (false, NilEmpty.string_of_uint (Pos.to_uint q))).
    { destruct (Pos.to_uint q); done. }
    rewrite Hsign, digit_prefix_uint, Hs, <- Hs, NilEmpty.usu, Hof.
    unfold in_int32 in Hp.
    by rewrite (proj2 (Z.leb_le _ _) (proj1 Hp)), (proj2 (Z.leb_le _ _) (proj2 Hp)).
  - destruct (uint_string_nonempty q) as (a & s & Hs & Ha).
    unfold NilZero.string_of_uint.
    assert (Hstr : match Pos.to_uint q with
                   | Decimal.Nil => "0"%string
                   | _ => NilEmpty.string_of_uint (Pos.to_uint q)
                   end = NilEmpty.string_of_uint (Pos.to_uint q)).
    { pose proof (DecimalPos.Unsigned.to_uint_nonnil q). by destruct (Pos.to_uint q). }
    rewrite Hstr. unfold stoi. simpl skip_space. cbv iota beta.
    rewrite digit_prefix_uint, Hs, <- Hs, NilEmpty.usu, Hof.
    unfold in_int32 in Hp.
    by rewrite (proj2 (Z.leb_le _ _) (proj1 Hp)), (proj2 (Z.leb_le _ _) (proj2 Hp)).
Qed.

(** X11. [ParseAddress] undoes [FormatAddress]: for a host without a colon
    and an [int] port, parsing the formatted address succeeds and gives back
    the host and the port, whatever the output parameters held. *)
Theorem ParseAddress_FormatAddress host port host0 port0 :
  find ":"%char host = None -> in_int32 port ->
  ParseAddress (FormatAddress host port) host0 port0 = (true, host, port).
Proof.
  intros Hh Hp. unfold ParseAddress, FormatAddress.
  change (String.append ":" (to_string port)) with (String ":"%char (to_string port)).
  rewrite find_app_colon by done.
  by rewrite substr_to_app, substr_from_app, stoi_to_string.
Qed.

Lemma ParseAddress_FormatAddress_witness :
  ParseAddress (FormatAddress "localhost" 5001) EmptyString 0 = (true, "localhost"%string, 5001).
Proof.
  apply (ParseAddress_FormatAddress "localhost" 5001 EmptyString 0).
  - reflexivity.
  - by vm_compute.
Defined.

Lemma find_substr_to c s n : find c s = Some n -> find c (substr_to n s) = None.
Proof.
  revert n. induction s as [|a s IH]; intros n; simpl; [done|].
  destruct (Ascii.eqb a c) eqn:Ha; [by intros [= <-]|].
  destruct (find c s) as [m|]; [|done]. intros [= <-]. simpl.
  by rewrite Ha, (IH m).
Qed.

Lemma stoi_in_int32 s v : stoi s = Some v -> in_int32 v.
Proof.
  unfold stoi.
  destruct (match skip_space s with
            | String "-"%char rest => (true, rest)
            | String "+"%char rest => (false, rest)
            | _ => (false, skip_space s)
            end) as [negative s'].
  destruct (digit_prefix s') as [|a digits]; [done|].
  destruct (NilEmpty.uint_of_string (String a digits)) as [d|]; [|done].
  destruct (Z.leb_spec INT32_MIN (if negative then - Z.of_uint d else Z.of_uint d));
    [|done].
  destruct (Z.leb_spec (if negative then - Z.of_uint d else Z.of_uint d) INT32_MAX);
    [|done].
  intros [= <-]. by split.
Qed.

(** X12. What [ParseAddress] hands back.  Without a colon in the address it
    fails and leaves both output parameters as they were.  When it succeeds,
    the host is the text before the first colon, so it holds no colon, and
    the port is an [int] read by [stoi] from what follows that colon.  When
    the text after the first colon is not a number, it fails with the port
    untouched but the host already overwritten. *)
Theorem ParseAddress_cases address host0 port0 :
  let r := ParseAddress address host0 port0 in
  (find ":"%char address = None -> r = (false, host0, port0))
  /\ (fst (fst r) = true ->
      exists colon_pos,
        find ":"%char address = Some colon_pos
        /\ snd (fst r) = substr_to colon_pos address
        /\ find ":"%char (snd (fst r)) = None
        /\ stoi (substr_from (colon_pos + 1) address) = Some (snd r)
        /\ in_int32 (snd r))
  /\ (forall colon_pos,
        find ":"%char address = Some colon_pos ->
        stoi (substr_from (colon_pos + 1) address) = None ->
        r = (false, substr_to colon_pos address, port0)).
Proof.
  intros r. subst r. unfold ParseAddress.
  destruct (find ":"%char address) as [n|] eqn:Hfind.
  - destruct (stoi (substr_from (n + 1) address)) as [p|] eqn:Hstoi; simpl.
    + split; [done|]. split; [|intros m [= <-] Hnone; congruence].
      intros _. exists n. repeat split; try done.
      * by apply find_substr_to.
      * by apply stoi_in_int32 in Hstoi as [? ?].
      * by apply stoi_in_int32 in Hstoi as [? ?].
    + split; [done|]. split; [done|]. by intros ? [= <-] _.
  - simpl. split; [done|]. split; done.
Qed.

Lemma ParseAddress_cases_witness :
  ParseAddress "localhost" "h" 7 = (false, "h"%string, 7)
  /\ ParseAddress "10.0.0.1:port" "h" 7 = (false, "10.0.0.1"%string, 7)
  /\ find ":"%char (snd (fst (ParseAddress "10.0.0.1:5001" "h" 7))) = None.
Proof.
  destruct (ParseAddress_cases "localhost" "h" 7) as (Hnone & _ & _).
  destruct (ParseAddress_cases "10.0.0.1:port" "h" 7) as (_ & _ & Hbad).
  destruct (ParseAddress_cases "10.0.0.1:5001" "h" 7) as (_ & Hok & _).
  split; [apply Hnone; reflexivity|]. split; [apply (Hbad 8%nat); reflexivity|].
  destruct (Hok eq_refl) as (n & _ & _ & Hcolon & _). exact Hcolon.
Defined.

End Helpers.

(** ** Configuration: looking servers up *)

(** X13. [GetServer] returns the first server of the list that carries the
    id asked for; when no server carries it, it returns the server with id 0,
    empty host and port 0. *)
Theorem GetServer_cases id0 c :
  let r := Config.GetServer id0 c in
  (Exists (fun s => Config.id s = id0) (Config.servers_ c) ->
     Config.id r = id0
     /\ exists before after,
          Config.servers_ c = before ++ r :: after
          /\ Forall (fun s => Config.id s <> id0) before)
  /\ (Forall (fun s => Config.id s <> id0) (Config.servers_ c) ->
        r = Config.mkServerInfo 0 EmptyString 0).
Proof.
  unfold Config.GetServer. generalize (Config.servers_ c). intros l. simpl. split.
  - induction l as [|s l IH]; intros Hex; [by inversion Hex|]. simpl.
    destruct (Z.eqb_spec (Config.id s) id0) as [Heq|Hne].
    + split; [done|]. exists [], l. split; [done | constructor].
    + apply Exists_cons in Hex as [Hs|Hl]; [by destruct Hne|].
      destruct (IH Hl) as (Hid & before & after & Hl' & Hbefore).
      split; [done|]. exists (s :: before), after.
      split; [simpl; by rewrite <- Hl' | by constructor].
  - induction 1 as [|s l Hs _ IH]; [done|]. simpl.
    by rewrite (proj2 (Z.eqb_neq _ _) Hs).
Qed.

Lemma GetServer_cases_witness :
  let c := Config.mk [Config.mkServerInfo 0 "a" 5001; Config.mkServerInfo 1 "b" 5002;
                      Config.mkServerInfo 1 "c" 5003] Config.ABD 2 2 3 0 0 in
  Config.id (Config.GetServer 1 c) = 1
  /\ Config.GetServer 9 c = Config.mkServerInfo 0 EmptyString 0.
Proof.
  intros c. destruct (GetServer_cases 1 c) as [Hfound _].
  destruct (GetServer_cases 9 c) as [_ Hmissing]. split.
  - apply Hfound. apply Exists_cons_tl, Exists_cons_hd. reflexivity.
  - apply Hmissing. repeat constructor; done.
Defined.

(** ** The ABD client engine: quorums *)

Section ABDClientQuorums.
Import ABDClientImpl.

Lemma to_size_t_small z : 0 <= z <= INT32_MAX -> to_size_t z = z.
Proof.
  intros Hz. unfold to_size_t, INT32_MAX in *. apply Z.mod_small. lia.
Qed.

Lemma wrap32_small z : 0 <= z <= INT32_MAX -> wrap32 z = z.
Proof.
  intros Hz. apply wrap32_id. unfold in_int32, INT32_MIN, INT32_MAX in *. lia.
Qed.

Lemma length_write_futures cfg writes :
  length (write_futures cfg writes) = length (Config.servers_ cfg).
Proof. unfold write_futures. by rewrite length_map, length_seq. Qed.

Lemma length_read_futures cfg reads :
  length (read_futures cfg reads) = length (Config.servers_ cfg).
Proof. unfold read_futures. by rewrite length_map, length_seq. Qed.

Lemma count_acks_quorum write_quorum futures written :
  0 <= written -> written + Z.of_nat (length futures) <= INT32_MAX ->
  (write_quorum <= count_acks write_quorum futures written
   <-> write_quorum <= written + Z.of_nat (length (acknowledged futures))).
Proof.
  revert written. induction futures as [|[ts|] futures IH]; intros written H0 Hb.
  - simpl. lia.
  - simpl in *. rewrite wrap32_small by lia.
    destruct (Z.geb_spec (written + 1) write_quorum).
    + lia.
    + rewrite IH by lia. lia.
  - simpl in *. rewrite IH by lia. lia.
Qed.

(** X14. An ABD [Write] succeeds exactly when at least [write_quorum] of
    the configured servers acknowledge it (so always when the quorum is 0),
    for a quorum between 0 and the number of servers. *)
Theorem ABD_Write_succeeds_iff_quorum cfg writes clock :
  0 <= Config.write_quorum_ cfg <= Config.size cfg ->
  Config.size cfg <= INT32_MAX ->
  (fst (fst (Write cfg writes clock)) = true
   <-> Config.write_quorum_ cfg
       <= Z.of_nat (length (acknowledged (write_futures cfg writes)))).
Proof.
  intros Hq Hn. unfold Write.
  rewrite to_size_t_small by lia.
  destruct (Z.gtb_spec (Config.write_quorum_ cfg) (Config.size cfg)); [lia|].
  fold (write_futures cfg writes).
  destruct (absorb_replies _ _) as [c tr]. simpl.
  pose proof (count_acks_quorum (Config.write_quorum_ cfg) (write_futures cfg writes) 0
                ltac:(lia)) as Hcount.
  rewrite length_write_futures in Hcount. unfold Config.size in *.
  specialize (Hcount ltac:(lia)). rewrite Z.add_0_l in Hcount. rewrite <- Hcount.
  destruct (Z.ltb_spec (count_acks (Config.write_quorum_ cfg) (write_futures cfg writes) 0)
              (Config.write_quorum_ cfg)); simpl; split; (done || lia).
Qed.

Lemma ABD_Write_succeeds_iff_quorum_witness :
  let cfg := Config.mk [Config.mkServerInfo 0 "a" 5001; Config.mkServerInfo 1 "b" 5002;
                        Config.mkServerInfo 2 "c" 5003] Config.ABD 2 2 3 0 0 in
  fst (fst (Write cfg [None; Some 1700000000001; Some 1700000000001] 1700000000000)) = true.
Proof.
  intros cfg.
  apply (ABD_Write_succeeds_iff_quorum cfg
           [None; Some 1700000000001; Some 1700000000001] 1700000000000);
    by vm_compute.
Defined.

Lemma absorb_replies_above bound futures clock :
  INT64_MIN <= clock -> clock + Z.of_nat (length futures) <= bound -> bound <= INT64_MAX ->
  Forall (fun ts => INT64_MIN <= ts /\ ts + Z.of_nat (length futures) <= bound)
    (acknowledged futures) ->
  clock <= fst (absorb_replies futures clock) <= bound
  /\ Forall (fun ts => ts < fst (absorb_replies futures clock)) (acknowledged futures).
Proof.
  revert clock. induction futures as [|[ts|] futures IH]; intros clock Hlo Hc Hb Hts; simpl in *.
  - split; [lia | constructor].
  - inversion_clear Hts as [|? ? [Hts1 Hts2] Hrest].
    assert (Hup : UpdateTimestamp ts clock = Z.max ts clock + 1).
    { apply ABD_UpdateTimestamp_above; unfold in_int64; lia. }
    specialize (IH (UpdateTimestamp ts clock)).
    destruct (absorb_replies futures (UpdateTimestamp ts clock)) as [c tr] eqn:Habs.
    simpl in *. rewrite Hup in IH.
    assert (Hrest' : Forall (fun ts => INT64_MIN <= ts
                                       /\ ts + Z.of_nat (length futures) <= bound)
                       (acknowledged futures)).
    { eapply Forall_impl; [exact Hrest|]. simpl. intros; lia. }
    destruct (IH ltac:(lia) ltac:(lia) Hb Hrest') as [IH1 IH2].
    split; [lia|]. constructor; [lia | done].
  - apply IH; try lia. eapply Forall_impl; [exact Hts|]. simpl. intros; lia.
Qed.

Lemma Write_scheduled_index_order cfg writes clock :
  Write_scheduled cfg writes (seq 0 (length (Config.servers_ cfg))) clock
  = Write cfg writes clock.
Proof. reflexivity. Qed.

(** X15. After an ABD [Write] that passes the quorum pre-check, and absent
    overflow, whatever the order in which its workers update the clock: the
    timestamp issued is the successor of the clock, and the clock ends
    strictly above the timestamp issued and above every timestamp
    acknowledged by a server. *)
Theorem ABD_Write_clock_above_acks cfg writes order clock :
  order ≡ₚ seq 0 (length (Config.servers_ cfg)) ->
  to_size_t (Config.write_quorum_ cfg) <= Config.size cfg ->
  INT64_MIN <= clock -> clock + 2 + Config.size cfg <= INT64_MAX ->
  Forall (fun ts => INT64_MIN <= ts /\ ts + Config.size cfg <= INT64_MAX)
    (acknowledged (write_futures cfg writes)) ->
  let r := Write_scheduled cfg writes order clock in
  (exists tr, snd r = Issued (clock + 1) :: tr)
  /\ clock + 1 < snd (fst r)
  /\ Forall (fun ts => ts < snd (fst r)) (acknowledged (write_futures cfg writes)).
Proof.
  intros Horder Hq Hlo Hhi Hts r. subst r. unfold Write_scheduled.
  destruct (Z.gtb_spec (to_size_t (Config.write_quorum_ cfg)) (Config.size cfg)); [lia|].
  remember (map (fun i => default None (writes !! i)) order) as scheduled eqn:Hsched.
  assert (Hperm : acknowledged scheduled ≡ₚ acknowledged (write_futures cfg writes)).
  { rewrite Hsched. unfold acknowledged, write_futures.
    apply omap_Permutation. by apply Permutation_map. }
  assert (Hlen : @length (option Z) scheduled = length (Config.servers_ cfg)).
  { rewrite Hsched, length_map, Horder. apply length_seq. }
  clear Hsched.
  assert (Hsize : 0 <= Config.size cfg) by (unfold Config.size; lia).
  rewrite wrap64_succ by (unfold in_int64; lia).
  assert (Hup : UpdateTimestamp (clock + 1) clock = clock + 2).
  { rewrite ABD_UpdateTimestamp_above by (unfold in_int64; lia). lia. }
  rewrite Hup.
  pose proof (absorb_replies_above INT64_MAX scheduled (clock + 2)) as Habs.
  unfold write_reply in *. rewrite Hlen in Habs.
  unfold Config.size in *. rewrite <- Hperm in Hts.
  destruct (Habs ltac:(lia) ltac:(lia) ltac:(lia) Hts) as [Habs1 Habs2].
  rewrite <- Hperm.
  destruct (absorb_replies _ _) as [c tr]. simpl in *.
  split; [eauto|]. split; [lia | done].
Qed.

Lemma ABD_Write_clock_above_acks_witness :
  let cfg := Config.mk [Config.mkServerInfo 0 "a" 5001; Config.mkServerInfo 1 "b" 5002;
                        Config.mkServerInfo 2 "c" 5003] Config.ABD 2 2 3 0 0 in
  let writes := [None; Some 1700000000009; Some 1700000000001] in
  1700000000000 + 1 < snd (fst (Write_scheduled cfg writes [2; 0; 1]%nat 1700000000000))
  /\ snd (fst (Write_scheduled cfg writes [2; 0; 1]%nat 1700000000000)) = 1700000000010
  /\ snd (fst (Write_scheduled cfg writes [0; 1; 2]%nat 1700000000000)) = 1700000000011.
Proof.
  intros cfg writes. split; [|split; reflexivity].
  apply (ABD_Write_clock_above_acks cfg writes [2; 0; 1]%nat 1700000000000).
  - apply (perm_trans (l' := [0; 2; 1]%nat)); [apply perm_swap|].
    apply perm_skip, perm_swap.
  - by vm_compute.
  - by vm_compute.
  - by vm_compute.
  - repeat constructor; by vm_compute.
Defined.

End ABDClientQuorums.

(** ** The ABD client engine: reads *)

Section ABDClientReads.
Import ABDClientImpl.

(** Phase 1 keeps the first [read_quorum] successful responses, in server
    order. *)
Lemma collect_responses_take read_quorum futures responses :
  Z.of_nat (length responses) < read_quorum ->
  Z.of_nat (length responses) + Z.of_nat (length futures) <= INT32_MAX ->
  collect_responses read_quorum futures responses
  = responses ++ take (Z.to_nat read_quorum - length responses) (successful futures).
Proof.
  revert responses. unfold successful.
  induction futures as [|r futures IH]; intros responses Hlt Hb; simpl.
  { rewrite filter_nil. destruct (Z.to_nat read_quorum - length responses)%nat;
      simpl; by rewrite app_nil_r. }
  rewrite filter_cons. destruct (decide (success r = true)) as [Hr|Hr].
  - rewrite Hr. rewrite length_app. simpl length.
    rewrite wrap32_small by (simpl in Hb; lia).
    destruct (Z.geb_spec (Z.of_nat (length responses + 1)) read_quorum) as [Hge|Hlt'].
    + replace (Z.to_nat read_quorum - length responses)%nat with 1%nat by lia.
      simpl. by rewrite take_0.
    + rewrite IH by (rewrite ?length_app; simpl in *; lia).
      rewrite length_app. simpl length. rewrite <- app_assoc. simpl.
      replace (Z.to_nat read_quorum - length responses)%nat
        with (S (Z.to_nat read_quorum - (length responses + 1)))%nat by lia.
      done.
  - apply not_true_is_false in Hr. rewrite Hr. apply IH; simpl in *; lia.
Qed.

Lemma max_element_from_in largest l :
  max_element_from largest l = largest \/ In (max_element_from largest l) l.
Proof.
  revert largest. induction l as [|x l IH]; intros largest; simpl; [by left|].
  destruct (timestamp largest <? timestamp x).
  - destruct (IH x) as [->|Hin]; auto.
  - destruct (IH largest) as [->|Hin]; auto.
Qed.

(** X16. The value an ABD [Read] returns comes from the first
    [read_quorum] successful responses in server order, and from one with
    the greatest timestamp among these: later responses are not looked at,
    whatever their timestamp. *)
Theorem ABD_Read_returns_newest_of_quorum cfg reads writes clock v c tr :
  1 <= Config.read_quorum_ cfg <= Config.size cfg ->
  Config.size cfg <= INT32_MAX ->
  Read cfg reads writes clock = (ReadOk v, c, tr) ->
  let responses :=
    take (Z.to_nat (Config.read_quorum_ cfg)) (successful (read_futures cfg reads)) in
  length responses = Z.to_nat (Config.read_quorum_ cfg)
  /\ exists r, In r responses /\ value r = v
               /\ Forall (fun r' => timestamp r' <= timestamp r) responses.
Proof.
  intros Hq Hn. unfold Read. rewrite to_size_t_small by lia.
  destruct (Z.gtb_spec (Config.read_quorum_ cfg) (Config.size cfg)); [lia|].
  fold (read_futures cfg reads).
  rewrite collect_responses_take
    by (rewrite ?length_read_futures; unfold Config.size in *; simpl; lia).
  simpl app. rewrite Nat.sub_0_r.
  set (responses := take _ _).
  rewrite wrap32_small
    by (pose proof (length_take_le' := length_take (successful (read_futures cfg reads))
                                         (Z.to_nat (Config.read_quorum_ cfg)));
        fold responses in length_take_le'; unfold INT32_MAX in *; lia).
  destruct (Z.ltb_spec (Z.of_nat (length responses)) (Config.read_quorum_ cfg)) as [|Hlen];
    [done|].
  destruct (max_element responses) as [m|] eqn:Hmax; [|done].
  destruct (write_back _ _ _ _) as [[w c'] tr'].
  destruct (w <? Config.write_quorum_ cfg); [done|].
  intros [= <- <- <-]. split.
  { subst responses. rewrite length_take in *. lia. }
  exists m. destruct responses as [|x l]; [done|]. injection Hmax as <-.
  split; [|split; [done|]].
  - destruct (max_element_from_in x l) as [->|Hin]; [by left | by right].
  - apply Forall_forall. intros r' Hr'%list_elem_of_In.
    apply max_element_from_upper. destruct Hr' as [->|Hr']; auto.
Qed.

Lemma ABD_Read_returns_newest_of_quorum_witness :
  let cfg := Config.mk [Config.mkServerInfo 0 "a" 5001; Config.mkServerInfo 1 "b" 5002;
                        Config.mkServerInfo 2 "c" 5003] Config.ABD 2 2 3 0 0 in
  let reads := [mkReadResponse "old" 5 true; mkReadResponse "new" 7 true;
                mkReadResponse "newest" 9 true] in
  exists r, In r (take 2 (successful (read_futures cfg reads)))
            /\ value r = "new"%string
            /\ Forall (fun r' => timestamp r' <= timestamp r)
                 (take 2 (successful (read_futures cfg reads))).
Proof.
  intros cfg reads.
  destruct (ABD_Read_returns_newest_of_quorum cfg reads
              [Some 1700000000002; Some 1700000000002] 1700000000000
              "new" 1700000000004
              [Observed 5; Observed 7; Issued 1700000000001;
               Observed 1700000000002; Observed 1700000000002])
    as [_ Hr]; [by vm_compute | by vm_compute | reflexivity | exact Hr].
Defined.

(** X17. An ABD [Read] that gets fewer successful responses than its read
    quorum fails without issuing a timestamp and without moving the clock;
    what it leaves in the history is the timestamps of the responses it
    got. *)
Theorem ABD_Read_fails_below_quorum cfg reads writes clock :
  1 <= Config.read_quorum_ cfg <= Config.size cfg ->
  Config.size cfg <= INT32_MAX ->
  Z.of_nat (length (successful (read_futures cfg reads))) < Config.read_quorum_ cfg ->
  Read cfg reads writes clock
  = (ReadFail, clock,
     map (fun r => Observed (timestamp r)) (successful (read_futures cfg reads))).
Proof.
  intros Hq Hn Hfew. unfold Read. rewrite to_size_t_small by lia.
  destruct (Z.gtb_spec (Config.read_quorum_ cfg) (Config.size cfg)); [lia|].
  fold (read_futures cfg reads).
  rewrite collect_responses_take
    by (rewrite ?length_read_futures; unfold Config.size in *; simpl; lia).
  simpl app. rewrite Nat.sub_0_r. rewrite take_ge by lia.
  rewrite wrap32_small by (unfold INT32_MAX in *; lia).
  by rewrite (proj2 (Z.ltb_lt _ _) Hfew).
Qed.

Lemma ABD_Read_fails_below_quorum_witness :
  let cfg := Config.mk [Config.mkServerInfo 0 "a" 5001; Config.mkServerInfo 1 "b" 5002;
                        Config.mkServerInfo 2 "c" 5003] Config.ABD 2 2 3 0 0 in
  Read cfg [no_response; mkReadResponse "x" 1700000060000 true] [] 1700000000000
  = (ReadFail, 1700000000000, [Observed 1700000060000]).
Proof.
  intros cfg.
  apply (ABD_Read_fails_below_quorum cfg
           [no_response; mkReadResponse "x" 1700000060000 true] [] 1700000000000);
    by vm_compute.
Defined.

End ABDClientReads.

(** ** Both client engines: the quorum pre-check *)





(** ** The blocking client engine: locks, writes, releases *)

Section BlockingClientQuorums.
Import BlockingClientImpl.

Lemma collect_locks_take quorum i lock_futures locked :
  Z.of_nat (length locked) < quorum ->
  Z.of_nat (length locked) + Z.of_nat (length lock_futures) <= INT32_MAX ->
  collect_locks quorum i lock_futures locked
  = locked ++ take (Z.to_nat quorum - length locked) (granted_indices i lock_futures).
Proof.
  revert i locked.
  induction lock_futures as [|g futures IH]; intros i locked Hlt Hb; simpl.
  { destruct (Z.to_nat quorum - length locked)%nat; simpl; by rewrite app_nil_r. }
  destruct g.
  - rewrite length_app. simpl length.
    rewrite wrap32_small by (simpl in Hb; lia).
    destruct (Z.geb_spec (Z.of_nat (length locked + 1)) quorum) as [Hge|Hlt'].
    + replace (Z.to_nat quorum - length locked)%nat with 1%nat by lia.
      simpl. by rewrite take_0.
    + rewrite IH by (rewrite ?length_app; simpl in *; lia).
      rewrite length_app. simpl length. rewrite <- app_assoc. simpl.
      replace (Z.to_nat quorum - length locked)%nat
        with (S (Z.to_nat quorum - (length locked + 1)))%nat by lia.
      done.
  - apply IH; simpl in *; lia.
Qed.

Lemma granted_indices_seq (f : nat -> bool) i n :
  granted_indices i (map f (seq i n)) = filter (fun j => f j = true) (seq i n).
Proof.
  revert i. induction n as [|n IH]; intros i; [done|].
  simpl. rewrite filter_cons, IH. destruct (f i); [by rewrite decide_True|].
  by rewrite decide_False.
Qed.

(** The replicas an operation holds locks on are the first [quorum]
    granting replicas, in server order. *)
Lemma collect_locks_granting cfg locks quorum :
  1 <= quorum -> Config.size cfg <= INT32_MAX ->
  collect_locks quorum 0
    (map (fun i => default false (locks !! i)) (seq 0 (length (Config.servers_ cfg)))) []
  = take (Z.to_nat quorum) (granting_replicas cfg locks).
Proof.
  intros Hq Hn. rewrite collect_locks_take.
  - simpl. rewrite Nat.sub_0_r. unfold granting_replicas.
    by rewrite (granted_indices_seq (fun i => default false (locks !! i))).
  - simpl. lia.
  - rewrite length_map, length_seq. unfold Config.size in *. simpl. lia.
Qed.

Lemma write_locked_trace ts writes locked written clock :
  snd (write_locked ts writes locked written clock) = map (fun idx => RpcWrite idx ts) locked.
Proof.
  revert written clock. induction locked as [|idx l IH]; intros written clock; [done|].
  simpl. destruct (default None (writes !! idx)) as [t|].
  - specialize (IH (wrap32 (written + 1)) (UpdateTimestamp t clock)).
    destruct (write_locked _ _ _ _ _) as [[w c] tr]. simpl in *. by rewrite IH.
  - specialize (IH written clock).
    destruct (write_locked _ _ _ _ _) as [[w c] tr]. simpl in *. by rewrite IH.
Qed.

Lemma write_locked_count ts writes locked written clock :
  0 <= written -> written + Z.of_nat (length locked) <= INT32_MAX ->
  written <= fst (fst (write_locked ts writes locked written clock))
            <= written + Z.of_nat (length locked)
  /\ (fst (fst (write_locked ts writes locked written clock))
      = written + Z.of_nat (length locked)
      <-> Forall (acknowledges writes) locked).
Proof.
  revert written clock. induction locked as [|idx l IH]; intros written clock H0 Hb.
  { simpl. split; [lia|]. split; [constructor | lia]. }
  change (length (idx :: l)) with (S (length l)) in *.
  rewrite Nat2Z.inj_succ in *. simpl write_locked.
  destruct (default None (writes !! idx)) as [t|] eqn:Hidx.
  - rewrite wrap32_small by lia.
    specialize (IH (written + 1) (UpdateTimestamp t clock)).
    destruct (write_locked _ _ _ _ _) as [[w c] tr]. cbn [fst snd] in *.
    destruct IH as [IH1 IH2]; [lia | lia |]. split; [lia|].
    rewrite Forall_cons. unfold acknowledges at 1. rewrite Hidx.
    split.
    + intros Hw. split; [by eexists|]. apply IH2. lia.
    + intros [_ Hl]. apply IH2 in Hl. lia.
  - specialize (IH written clock).
    destruct (write_locked _ _ _ _ _) as [[w c] tr]. cbn [fst snd] in *.
    destruct IH as [IH1 IH2]; [lia | lia |]. split; [lia|].
    rewrite Forall_cons. unfold acknowledges at 1. rewrite Hidx.
    split; [lia|]. by intros [[? [=]] _].
Qed.

(** X19. When fewer replicas grant the lock than the write quorum asks for,
    a blocking [Write] fails, sends no write, keeps its clock, and sends
    [ReleaseLock] to every replica that granted. *)
Theorem Blocking_Write_rolls_back cfg locks writes clock :
  1 <= Config.write_quorum_ cfg <= Config.size cfg ->
  Config.size cfg <= INT32_MAX ->
  Z.of_nat (length (granting_replicas cfg locks)) < Config.write_quorum_ cfg ->
  Write cfg locks writes clock
  = (false, clock,
     map RpcAcquireLock (seq 0 (length (Config.servers_ cfg)))
     ++ map RpcReleaseLock (granting_replicas cfg locks)).
Proof.
  intros Hq Hn Hfew. unfold Write. rewrite to_size_t_small by lia.
  destruct (Z.gtb_spec (Config.write_quorum_ cfg) (Config.size cfg)); [lia|].
  rewrite collect_locks_granting by lia.
  rewrite take_ge by lia.
  rewrite wrap32_small by (unfold INT32_MAX in *; lia).
  by rewrite (proj2 (Z.ltb_lt _ _) Hfew).
Qed.

Lemma Blocking_Write_rolls_back_witness :
  let cfg := Config.mk [Config.mkServerInfo 0 "a" 5001; Config.mkServerInfo 1 "b" 5002;
                        Config.mkServerInfo 2 "c" 5003] Config.BLOCKING 2 2 3 0 0 in
  Write cfg [false; false; true] [] 1700000000000
  = (false, 1700000000000,
     [RpcAcquireLock 0; RpcAcquireLock 1; RpcAcquireLock 2; RpcReleaseLock 2]).
Proof.
  intros cfg.
  apply (Blocking_Write_rolls_back cfg [false; false; true] [] 1700000000000);
    by vm_compute.
Defined.

(** X20. When enough replicas grant, a blocking [Write] asks every server
    for the lock, then writes, with one timestamp, to the first
    [write_quorum] granting replicas in server order and to no other, then
    releases exactly these; and it succeeds exactly when every one of them
    acknowledges the write. *)
Theorem Blocking_Write_on_quorum cfg locks writes clock :
  1 <= Config.write_quorum_ cfg <= Config.size cfg ->
  Config.size cfg <= INT32_MAX ->
  Config.write_quorum_ cfg <= Z.of_nat (length (granting_replicas cfg locks)) ->
  let locked := take (Z.to_nat (Config.write_quorum_ cfg)) (granting_replicas cfg locks) in
  let r := Write cfg locks writes clock in
  snd r = map RpcAcquireLock (seq 0 (length (Config.servers_ cfg)))
          ++ map (fun idx => RpcWrite idx (wrap64 (clock + 1))) locked
          ++ map RpcReleaseLock locked
  /\ (fst (fst r) = true <-> Forall (acknowledges writes) locked).
Proof.
  intros Hq Hn Hmany locked r. subst r. unfold Write. rewrite to_size_t_small by lia.
  destruct (Z.gtb_spec (Config.write_quorum_ cfg) (Config.size cfg)); [lia|].
  rewrite collect_locks_granting by lia. fold locked.
  assert (Hlen : length locked = Z.to_nat (Config.write_quorum_ cfg)).
  { subst locked. rewrite length_take. lia. }
  rewrite wrap32_small by (unfold INT32_MAX in *; lia).
  destruct (Z.ltb_spec (Z.of_nat (length locked)) (Config.write_quorum_ cfg)); [lia|].
  pose proof (write_locked_trace (wrap64 (clock + 1)) writes locked 0
                (UpdateTimestamp (wrap64 (clock + 1)) clock)) as Htr.
  pose proof (write_locked_count (wrap64 (clock + 1)) writes locked 0
                (UpdateTimestamp (wrap64 (clock + 1)) clock) ltac:(lia)) as Hcount.
  destruct (write_locked _ _ _ _ _) as [[w c] tr]. simpl in *.
  destruct Hcount as [Hrange Hall]; [unfold INT32_MAX in *; lia|].
  split; [by rewrite Htr|]. rewrite <- Hall.
  destruct (Z.ltb_spec w (Config.write_quorum_ cfg)); simpl; split; (done || lia).
Qed.

Lemma Blocking_Write_on_quorum_witness :
  let cfg := Config.mk [Config.mkServerInfo 0 "a" 5001; Config.mkServerInfo 1 "b" 5002;
                        Config.mkServerInfo 2 "c" 5003] Config.BLOCKING 2 2 3 0 0 in
  snd (Write cfg [true; false; true] [Some 1700000000001; None; Some 1700000000001]
         1700000000000)
  = [RpcAcquireLock 0; RpcAcquireLock 1; RpcAcquireLock 2;
     RpcWrite 0 1700000000001; RpcWrite 2 1700000000001;
     RpcReleaseLock 0; RpcReleaseLock 2].
Proof.
  intros cfg.
  apply (Blocking_Write_on_quorum cfg [true; false; true]
           [Some 1700000000001; None; Some 1700000000001] 1700000000000);
    by vm_compute.
Defined.

End BlockingClientQuorums.

(** ** The blocking client engine: reads *)

Section BlockingClientReads.
Import BlockingClientImpl.

Lemma Blocking_max_element_from_ge_first largest l :
  timestamp largest <= timestamp (max_element_from largest l).
Proof.
  revert largest. induction l as [|x l IH]; intros largest; simpl; [lia|].
  destruct (Z.ltb_spec (timestamp largest) (timestamp x)).
  - specialize (IH x). lia.
  - apply IH.
Qed.

Lemma Blocking_max_element_from_upper largest l r :
  r = largest \/ In r l ->
  timestamp r <= timestamp (max_element_from largest l).
Proof.
  intros [->|Hin]; [apply Blocking_max_element_from_ge_first|].
  revert largest. induction l as [|x l IH]; intros largest; [done|].
  simpl. destruct Hin as [->|Hin]; [|by apply IH].
  destruct (Z.ltb_spec (timestamp largest) (timestamp r)).
  - apply Blocking_max_element_from_ge_first.
  - pose proof (Blocking_max_element_from_ge_first largest l). lia.
Qed.

Lemma Blocking_max_element_from_in largest l :
  max_element_from largest l = largest \/ In (max_element_from largest l) l.
Proof.
  revert largest. induction l as [|x l IH]; intros largest; simpl; [by left|].
  destruct (timestamp largest <? timestamp x).
  - destruct (IH x) as [->|Hin]; auto.
  - destruct (IH largest) as [->|Hin]; auto.
Qed.

(** X21. A blocking [Read] releases every lock it holds on every path.
    With fewer granting replicas than the read quorum it fails and releases
    all that granted.  Otherwise it reads from the first [read_quorum]
    granting replicas in server order and releases exactly these, also when
    none of them answers the read, in which case it fails; and a value it
    returns is that of an answer with the greatest timestamp among the
    successful answers of these replicas. *)
Theorem Blocking_Read_cases cfg locks reads :
  1 <= Config.read_quorum_ cfg <= Config.size cfg ->
  Config.size cfg <= INT32_MAX ->
  let granting := granting_replicas cfg locks in
  let locked := take (Z.to_nat (Config.read_quorum_ cfg)) granting in
  let answers := read_locked reads locked in
  let acquires := map RpcAcquireLock (seq 0 (length (Config.servers_ cfg))) in
  let r := Read cfg locks reads in
  (Z.of_nat (length granting) < Config.read_quorum_ cfg ->
     r = (None, acquires ++ map RpcReleaseLock granting))
  /\ (Config.read_quorum_ cfg <= Z.of_nat (length granting) ->
        snd r = acquires ++ map RpcRead locked ++ map RpcReleaseLock locked
        /\ (answers = [] -> fst r = None)
        /\ (forall v, fst r = Some v ->
              exists a, In a answers /\ value a = v
                        /\ Forall (fun a' => timestamp a' <= timestamp a) answers)).
Proof.
  intros Hq Hn granting locked answers acquires r.
  subst r. unfold Read. rewrite to_size_t_small by lia.
  destruct (Z.gtb_spec (Config.read_quorum_ cfg) (Config.size cfg)); [lia|].
  rewrite collect_locks_granting by lia. fold granting. fold locked. fold acquires.
  split.
  - intros Hfew. subst locked. rewrite take_ge by lia.
    rewrite wrap32_small by (unfold INT32_MAX in *; lia).
    by rewrite (proj2 (Z.ltb_lt _ _) Hfew).
  - intros Hmany.
    assert (Hlen : length locked = Z.to_nat (Config.read_quorum_ cfg)).
    { subst locked. rewrite length_take. lia. }
    rewrite wrap32_small by (unfold INT32_MAX in *; lia).
    destruct (Z.ltb_spec (Z.of_nat (length locked)) (Config.read_quorum_ cfg)); [lia|].
    fold answers. unfold release_all.
    destruct answers as [|x l] eqn:Hanswers; simpl.
    + split; [done|]. split; [done|]. by intros v [=].
    + split; [done|]. split; [done|]. intros v [= <-].
      exists (max_element_from x l). split; [|split; [done|]].
      * destruct (Blocking_max_element_from_in x l) as [->|Hin]; [by left | by right].
      * apply Forall_forall. intros a' Ha'%list_elem_of_In.
        apply Blocking_max_element_from_upper. destruct Ha' as [->|Ha']; auto.
Qed.

Lemma Blocking_Read_cases_witness :
  let cfg := Config.mk [Config.mkServerInfo 0 "a" 5001; Config.mkServerInfo 1 "b" 5002;
                        Config.mkServerInfo 2 "c" 5003] Config.BLOCKING 2 2 3 0 0 in
  Read cfg [true; false; false] [] = (None, [RpcAcquireLock 0; RpcAcquireLock 1;
                                             RpcAcquireLock 2; RpcReleaseLock 0])
  /\ snd (Read cfg [true; true; true] [])
     = [RpcAcquireLock 0; RpcAcquireLock 1; RpcAcquireLock 2;
        RpcRead 0; RpcRead 1; RpcReleaseLock 0; RpcReleaseLock 1].
Proof.
  intros cfg.
  destruct (Blocking_Read_cases cfg [true; false; false] []) as [Hfew _];
    [by vm_compute | by vm_compute |].
  destruct (Blocking_Read_cases cfg [true; true; true] []) as [_ Hmany];
    [by vm_compute | by vm_compute |].
  split.
  - apply Hfew. by vm_compute.
  - apply Hmany. by vm_compute.
Defined.

End BlockingClientReads.

(** ** The ABD client engine: the write-back and the whole read *)

Section ABDClientWriteBack.
Import ABDClientImpl.

Lemma write_back_quorum write_quorum stubs written clock :
  0 <= written -> written + Z.of_nat (length stubs) <= INT32_MAX ->
  (write_quorum <= fst (fst (write_back write_quorum stubs written clock))
   <-> write_quorum <= written + Z.of_nat (length (acknowledged stubs))).
Proof.
  revert written clock.
  induction stubs as [|[ts|] stubs IH]; intros written clock H0 Hb.
  - simpl. lia.
  - change (length (Some ts :: stubs)) with (S (length stubs)) in Hb.
    rewrite Nat2Z.inj_succ in Hb. simpl.
    destruct (Z.ltb_spec written write_quorum).
    + rewrite wrap32_small by lia.
      specialize (IH (written + 1) (UpdateTimestamp ts clock) ltac:(lia) ltac:(lia)).
      destruct (write_back _ _ _ _) as [[w c] tr]. simpl in *. lia.
    + simpl. lia.
  - change (length (None :: stubs)) with (S (length stubs)) in Hb.
    rewrite Nat2Z.inj_succ in Hb. simpl.
    destruct (Z.ltb_spec written write_quorum).
    + apply IH; lia.
    + simpl. lia.
Qed.

(** X22. An ABD [Read] returns a value exactly when at least [read_quorum]
    servers answer the read successfully and at least [write_quorum] servers
    acknowledge the write-back. *)
Theorem ABD_Read_succeeds_iff_quorums cfg reads writes clock :
  1 <= Config.read_quorum_ cfg <= Config.size cfg ->
  Config.size cfg <= INT32_MAX ->
  ((exists v, fst (fst (Read cfg reads writes clock)) = ReadOk v)
   <-> Config.read_quorum_ cfg <= Z.of_nat (length (successful (read_futures cfg reads)))
       /\ Config.write_quorum_ cfg
          <= Z.of_nat (length (acknowledged (write_futures cfg writes)))).
Proof.
  intros Hq Hn. unfold Read. rewrite to_size_t_small by lia.
  destruct (Z.gtb_spec (Config.read_quorum_ cfg) (Config.size cfg)); [lia|].
  fold (read_futures cfg reads). fold (write_futures cfg writes).
  rewrite collect_responses_take
    by (rewrite ?length_read_futures; unfold Config.size in *; simpl; lia).
  simpl app. rewrite Nat.sub_0_r.
  set (responses := take _ _).
  assert (Hlen : length responses
                 = Nat.min (Z.to_nat (Config.read_quorum_ cfg))
                     (length (successful (read_futures cfg reads))))
    by apply length_take.
  rewrite wrap32_small by (unfold INT32_MAX in *; lia).
  destruct (Z.ltb_spec (Z.of_nat (length responses)) (Config.read_quorum_ cfg)) as [Hlt|Hge].
  { simpl. split; [by intros [v [=]] | lia]. }
  destruct (max_element responses) as [m|] eqn:Hmax.
  2:{ destruct responses; [simpl in *; lia | done]. }
  pose proof (write_back_quorum (Config.write_quorum_ cfg) (write_futures cfg writes) 0
                (UpdateTimestamp (wrap64 (Z.max (timestamp m) clock + 1)) clock)
                ltac:(lia)) as Hwb.
  rewrite length_write_futures in Hwb. unfold Config.size in *.
  specialize (Hwb ltac:(lia)). rewrite Z.add_0_l in Hwb.
  destruct (write_back _ _ _ _) as [[w c] tr]. simpl in *.
  destruct (Z.ltb_spec w (Config.write_quorum_ cfg)); simpl.
  - split; [by intros [v [=]] | lia].
  - split; [lia | eauto].
Qed.

Lemma ABD_Read_succeeds_iff_quorums_witness :
  let cfg := Config.mk [Config.mkServerInfo 0 "a" 5001; Config.mkServerInfo 1 "b" 5002;
                        Config.mkServerInfo 2 "c" 5003] Config.ABD 2 2 3 0 0 in
  exists v, fst (fst (Read cfg [mkReadResponse "x" 5 true; no_response;
                                mkReadResponse "y" 7 true]
                        [Some 1700000000002; None; Some 1700000000002] 1700000000000))
            = ReadOk v.
Proof.
  intros cfg.
  apply (ABD_Read_succeeds_iff_quorums cfg
           [mkReadResponse "x" 5 true; no_response; mkReadResponse "y" 7 true]
           [Some 1700000000002; None; Some 1700000000002] 1700000000000);
    by vm_compute.
Defined.

(** X23. The timestamp an ABD [Read] issues for its write-back is, absent
    overflow, strictly greater than the clock and than the timestamp of
    every response the read collected. *)
Theorem ABD_Read_write_back_fresh cfg reads writes clock :
  1 <= Config.read_quorum_ cfg <= Config.size cfg ->
  Config.size cfg <= INT32_MAX ->
  Config.read_quorum_ cfg <= Z.of_nat (length (successful (read_futures cfg reads))) ->
  in_int64 clock -> clock < INT64_MAX ->
  Forall (fun r => in_int64 (timestamp r) /\ timestamp r < INT64_MAX)
    (read_futures cfg reads) ->
  let responses :=
    take (Z.to_nat (Config.read_quorum_ cfg)) (successful (read_futures cfg reads)) in
  exists write_timestamp tr,
    snd (Read cfg reads writes clock)
    = map (fun r => Observed (timestamp r)) responses ++ Issued write_timestamp :: tr
    /\ clock < write_timestamp
    /\ Forall (fun r => timestamp r < write_timestamp) responses.
Proof.
  intros Hq Hn Hmany Hc Hclt Hts responses. unfold Read.
  rewrite to_size_t_small by lia.
  destruct (Z.gtb_spec (Config.read_quorum_ cfg) (Config.size cfg)); [lia|].
  fold (read_futures cfg reads).
  rewrite collect_responses_take
    by (rewrite ?length_read_futures; unfold Config.size in *; simpl; lia).
  simpl app. rewrite Nat.sub_0_r. fold responses.
  assert (Hlen : length responses = Z.to_nat (Config.read_quorum_ cfg)).
  { subst responses. rewrite length_take. lia. }
  rewrite wrap32_small by (unfold INT32_MAX in *; lia).
  destruct (Z.ltb_spec (Z.of_nat (length responses)) (Config.read_quorum_ cfg)); [lia|].
  destruct (max_element responses) as [m|] eqn:Hmax.
  2:{ destruct responses; [simpl in *; lia | done]. }
  assert (Hm : in_int64 (timestamp m) /\ timestamp m < INT64_MAX).
  { assert (Hin : m ∈ read_futures cfg reads).
    { assert (Hin' : m ∈ responses).
      { destruct responses as [|x l]; [done|]. injection Hmax as <-.
        apply list_elem_of_In.
        destruct (max_element_from_in x l) as [->|Hin']; [by left | by right]. }
      subst responses. apply subseteq_take in Hin'.
      unfold successful in Hin'. by apply list_elem_of_filter in Hin' as [_ ?]. }
    by apply (proj1 (Forall_forall _ _) Hts). }
  destruct Hm as [Hm1 Hm2].
  destruct (ABD_write_back_timestamp_above responses m clock Hmax Hc Hm1 Hclt Hm2)
    as [Hclock Hall].
  destruct (write_back _ _ _ _) as [[w c] tr]. simpl. eauto.
Qed.

Lemma ABD_Read_write_back_fresh_witness :
  let cfg := Config.mk [Config.mkServerInfo 0 "a" 5001; Config.mkServerInfo 1 "b" 5002;
                        Config.mkServerInfo 2 "c" 5003] Config.ABD 2 2 3 0 0 in
  let reads := [mkReadResponse "x" 1700000060000 true; mkReadResponse "y" 7 true;
                mkReadResponse "z" 9 true] in
  exists write_timestamp tr,
    snd (Read cfg reads [Some 1700000060002; Some 1700000060002] 1700000000000)
    = [Observed 1700000060000; Observed 7] ++ Issued write_timestamp :: tr
    /\ 1700000000000 < write_timestamp.
Proof.
  intros cfg reads.
  destruct (ABD_Read_write_back_fresh cfg reads [Some 1700000060002; Some 1700000060002]
              1700000000000) as (wts & tr & Htr & Hclock & _).
  - by vm_compute.
  - by vm_compute.
  - by vm_compute.
  - by vm_compute.
  - by vm_compute.
  - repeat constructor; by vm_compute.
  - exists wts, tr. split; [exact Htr | exact Hclock].
Defined.

End ABDClientWriteBack.

(** ** The blocking server register: taking a lock over *)

Section BlockingTakeover.
Import BlockingProtocol.

(** X24. Once another client has taken over a timed-out lock, the former
    owner is shut out: the new client owns the lock, and the former owner
    can neither read nor write nor release it, its requests leaving the
    replica as the takeover left it; the store is untouched by the
    takeover. *)
Theorem timed_out_lock_taken_over key e other c st :
  locks_ st !! key = Some e -> other <> owner_id e ->
  LOCK_TIMEOUT_SECONDS < duration_cast_seconds (now c - acquired_at e) ->
  let st' := snd (AcquireLock key other c st) in
  owns_lock key other st'
  /\ ~ owns_lock key (owner_id e) st'
  /\ rr_success (Read key (owner_id e) st') = false
  /\ (forall val client_ts current rejected_ts,
        Write key val client_ts (owner_id e) current rejected_ts st'
        = (mkWriteResult false rejected_ts, st'))
  /\ ReleaseLock key (owner_id e) st' = (false, st')
  /\ store_ st' = store_ st.
Proof.
  intros He Hother Htimeout st'.
  assert (Hst' : st' = with_locks st
                         (<[key := mkLockEntry other (ctor_now c)]> (delete key (locks_ st)))).
  { subst st'. unfold AcquireLock. rewrite He.
    by rewrite (proj2 (Z.gtb_lt _ _) Htimeout). }
  assert (Hlock : locks_ st' !! key = Some (mkLockEntry other (ctor_now c))).
  { rewrite Hst'. simpl. apply lookup_insert_eq. }
  assert (Hneq : (other =? owner_id e) = false) by by apply Z.eqb_neq.
  split; [by eexists|]. split.
  { intros (e' & He' & Howner). rewrite Hlock in He'. injection He' as <-.
    simpl in Howner. done. }
  split; [unfold Read, holds_lock; by rewrite Hlock; simpl; rewrite Hneq|].
  split; [intros; unfold Write, holds_lock; by rewrite Hlock; simpl; rewrite Hneq|].
  split; [unfold ReleaseLock; by rewrite Hlock; simpl; rewrite Hneq|].
  by rewrite Hst'.
Qed.

Lemma timed_out_lock_taken_over_witness :
  let st := snd (AcquireLock "k" 1 (mkClocks 0 1000 1700000000000) init) in
  let st' := snd (AcquireLock "k" 2 (mkClocks 31000001000 31000002000 1700000031000) st) in
  ReleaseLock "k" 1 st' = (false, st')
  /\ rr_success (Read "k" 1 st') = false.
Proof.
  intros st st'.
  destruct (timed_out_lock_taken_over "k" (mkLockEntry 1 1000) 2
              (mkClocks 31000001000 31000002000 1700000031000) st)
    as (_ & _ & Hread & _ & Hrelease & _).
  - reflexivity.
  - done.
  - by vm_compute.
  - split; [exact Hrelease | exact Hread].
Defined.

End BlockingTakeover.

(** ** The ABD client against its replicas *)

Section ABDEndToEnd.
Import ABDClientImpl.

Lemma map_lookup_default_seq {A} (d : A) (l : list A) :
  map (fun i => default d (l !! i)) (seq 0 (length l)) = l.
Proof.
  apply list_eq. intros i. rewrite list_lookup_fmap.
  destruct (decide (i < length l)%nat) as [Hlt|Hge].
  - rewrite lookup_seq_lt by done. simpl.
    destruct (lookup_lt_is_Some_2 l i Hlt) as [x Hx]. by rewrite Hx.
  - rewrite lookup_seq_ge by lia. simpl. symmetry. apply lookup_ge_None. lia.
Qed.

Lemma acknowledged_imap_Some {A} (f : nat -> A -> Z) (l : list A) :
  length (acknowledged (imap (fun i s => Some (f i s)) l)) = length l.
Proof.
  revert f. induction l as [|x l IH]; intros f; [done|].
  simpl. f_equal. apply (IH (f ∘ S)).
Qed.

(** Every replica acknowledges. *)
Lemma serve_write_all_ack key val ts current replicas :
  serve_write key val ts current replicas
  = imap (fun i s => Some (ABDProtocol.wr_timestamp
                             (fst (ABDProtocol.Write key val ts (current i) s)))) replicas.
Proof. reflexivity. Qed.

Lemma serve_read_after_write key val ts current replicas client_timestamp r :
  r ∈ serve_read key client_timestamp (after_write key val ts current replicas) ->
  success r = true /\ value r = val.
Proof.
  unfold serve_read, after_write. intros (s & -> & Hs)%list_elem_of_fmap.
  apply elem_of_lookup_imap_1 in Hs as (i & s0 & -> & _).
  unfold ABDProtocol.Read. simpl. by rewrite lookup_insert_eq.
Qed.

Lemma successful_all l : Forall (fun r => success r = true) l -> successful l = l.
Proof.
  unfold successful. induction 1 as [|x l Hx _ IH]; [done|].
  by rewrite filter_cons, decide_True, IH.
Qed.

(** X25. Write, then read: with every replica reachable, an ABD [Write] of
    [val] succeeds, and a [Read] that follows returns [val] as soon as its
    write-back is acknowledged by [write_quorum] replicas, whatever the
    replicas held before, whatever their wall clocks read and whatever the
    quorums between 1 and the number of servers. *)
Theorem ABD_Write_then_Read cfg key val clock current replicas write_back_replies :
  length replicas = length (Config.servers_ cfg) ->
  1 <= Config.read_quorum_ cfg <= Config.size cfg ->
  0 <= Config.write_quorum_ cfg <= Config.size cfg ->
  Config.size cfg <= INT32_MAX ->
  Config.write_quorum_ cfg
  <= Z.of_nat (length (acknowledged (write_futures cfg write_back_replies))) ->
  let timestamp := wrap64 (clock + 1) in
  let w := Write cfg (serve_write key val timestamp current replicas) clock in
  let replicas' := after_write key val timestamp current replicas in
  let clock' := snd (fst w) in
  fst (fst w) = true
  /\ fst (fst (Read cfg (serve_read key clock' replicas') write_back_replies clock'))
     = ReadOk val.
Proof.
  intros Hlen Hr Hw Hn Hwb ts w replicas' clock'. split.
  - subst w. unfold Write. rewrite to_size_t_small by lia.
    destruct (Z.gtb_spec (Config.write_quorum_ cfg) (Config.size cfg)); [lia|].
    fold (write_futures cfg (serve_write key val ts current replicas)).
    assert (Hfut : write_futures cfg (serve_write key val ts current replicas)
                   = serve_write key val ts current replicas).
    { unfold write_futures. rewrite <- Hlen.
      rewrite <- (length_imap (fun i s =>
                    let result := fst (ABDProtocol.Write key val ts (current i) s) in
                    if ABDProtocol.wr_success result
                    then Some (ABDProtocol.wr_timestamp result) else None) replicas).
      apply map_lookup_default_seq. }
    rewrite Hfut.
    destruct (absorb_replies _ _) as [c tr]. simpl.
    pose proof (count_acks_quorum (Config.write_quorum_ cfg)
                  (serve_write key val ts current replicas) 0 ltac:(lia)) as Hcount.
    rewrite serve_write_all_ack in Hcount at 1 3.
    rewrite length_imap, acknowledged_imap_Some in Hcount.
    unfold Config.size in *. rewrite Hlen in Hcount.
    specialize (Hcount ltac:(lia)).
    destruct (Z.ltb_spec (count_acks (Config.write_quorum_ cfg)
                            (serve_write key val ts current replicas) 0)
                (Config.write_quorum_ cfg)); [lia | done].
  - generalize clock'. clear clock' w. intros clock'.
    set (reads := serve_read key clock' replicas').
    assert (Hreads : length reads = length (Config.servers_ cfg)).
    { subst reads replicas'. unfold serve_read, after_write.
      by rewrite length_map, length_imap. }
    assert (Hall : forall r, r ∈ reads -> success r = true /\ value r = val).
    { intros r Hr'. by apply serve_read_after_write in Hr'. }
    unfold Read. rewrite to_size_t_small by lia.
    destruct (Z.gtb_spec (Config.read_quorum_ cfg) (Config.size cfg)); [lia|].
    fold (read_futures cfg reads). fold (write_futures cfg write_back_replies).
    assert (Hfut : read_futures cfg reads = reads).
    { unfold read_futures. rewrite <- Hreads. apply map_lookup_default_seq. }
    rewrite Hfut.
    rewrite collect_responses_take by (simpl; unfold Config.size in *; lia).
    simpl app. rewrite Nat.sub_0_r.
    rewrite successful_all by (apply Forall_forall; intros r Hr'; by apply Hall).
    set (responses := take _ _).
    assert (Hlen' : length responses = Z.to_nat (Config.read_quorum_ cfg)).
    { subst responses. rewrite length_take. unfold Config.size in *. lia. }
    rewrite wrap32_small by (unfold INT32_MAX in *; lia).
    destruct (Z.ltb_spec (Z.of_nat (length responses)) (Config.read_quorum_ cfg)); [lia|].
    destruct (max_element responses) as [m|] eqn:Hmax.
    2:{ destruct responses; [simpl in *; lia | done]. }
    assert (Hm : value m = val).
    { apply Hall. apply (subseteq_take (Z.to_nat (Config.read_quorum_ cfg))).
      fold responses. destruct responses as [|x l]; [done|]. injection Hmax as <-.
      apply list_elem_of_In.
      destruct (max_element_from_in x l) as [->|Hin]; [by left | by right]. }
    pose proof (write_back_quorum (Config.write_quorum_ cfg)
                  (write_futures cfg write_back_replies) 0
                  (UpdateTimestamp (wrap64 (Z.max (ABDClientImpl.timestamp m) clock' + 1)) clock')
                  ltac:(lia)) as Hquorum.
    rewrite length_write_futures in Hquorum. unfold Config.size in *.
    specialize (Hquorum ltac:(lia)). rewrite Z.add_0_l in Hquorum.
    destruct (write_back _ _ _ _) as [[w c] tr]. simpl in *.
    destruct (Z.ltb_spec w (Config.write_quorum_ cfg)); [lia|]. by rewrite Hm.
Qed.

Lemma ABD_Write_then_Read_witness :
  let cfg := Config.mk [Config.mkServerInfo 0 "a" 5001; Config.mkServerInfo 1 "b" 5002;
                        Config.mkServerInfo 2 "c" 5003] Config.ABD 2 2 3 0 0 in
  let replicas := [ABDProtocol.init; ABDProtocol.init; ABDProtocol.init] in
  let current := fun i : nat => 1700000000000 + Z.of_nat i in
  let w := Write cfg (serve_write "k" "v" 1700000000001 current replicas) 1700000000000 in
  fst (fst (Read cfg
              (serve_read "k" (snd (fst w))
                 (after_write "k" "v" 1700000000001 current replicas))
              [Some 1700000000009; Some 1700000000009] (snd (fst w))))
  = ReadOk "v".
Proof.
  intros cfg replicas current w.
  apply (ABD_Write_then_Read cfg "k" "v" 1700000000000 current replicas
           [Some 1700000000009; Some 1700000000009]); by vm_compute.
Defined.

End ABDEndToEnd.

(** ** The blocking client against its replicas *)

Section BlockingEndToEnd.
Import BlockingClientImpl.

Lemma granting_all cfg locks :
  (forall i, (i < length (Config.servers_ cfg))%nat -> locks !! i = Some true) ->
  granting_replicas cfg locks = seq 0 (length (Config.servers_ cfg)).
Proof.
  intros Hall. unfold granting_replicas.
  assert (Hseq : Forall (fun i => (i < length (Config.servers_ cfg))%nat)
                   (seq 0 (length (Config.servers_ cfg)))).
  { apply Forall_forall. intros i Hi%elem_of_seq. lia. }
  induction Hseq as [|i l Hi _ IH]; [done|].
  rewrite filter_cons, decide_True by (by rewrite Hall). by rewrite IH.
Qed.

Lemma granting_none cfg locks :
  (forall i, (i < length (Config.servers_ cfg))%nat -> locks !! i = Some false) ->
  granting_replicas cfg locks = [].
Proof.
  intros Hall. unfold granting_replicas.
  assert (Hseq : Forall (fun i => (i < length (Config.servers_ cfg))%nat)
                   (seq 0 (length (Config.servers_ cfg)))).
  { apply Forall_forall. intros i Hi%elem_of_seq. lia. }
  induction Hseq as [|i l Hi _ IH]; [done|].
  rewrite filter_cons, decide_False by (by rewrite Hall). by rewrite IH.
Qed.

Lemma AcquireLock_available key client_id c s :
  lock_available key c s ->
  BlockingProtocol.lr_granted (fst (BlockingProtocol.AcquireLock key client_id c s)) = true
  /\ BlockingProtocol.holds_lock key client_id
       (snd (BlockingProtocol.AcquireLock key client_id c s)) = true.
Proof.
  unfold lock_available, BlockingProtocol.AcquireLock, BlockingProtocol.holds_lock.
  destruct (BlockingProtocol.locks_ s !! key) as [e|]; simpl.
  - intros Ht. rewrite (proj2 (Z.gtb_lt _ _) Ht). simpl.
    by rewrite lookup_insert_eq, Z.eqb_refl.
  - intros _. by rewrite lookup_insert_eq, Z.eqb_refl.
Qed.

Lemma AcquireLock_held_against key client_id c s :
  lock_held_against key client_id c s ->
  BlockingProtocol.AcquireLock key client_id c s
  = (BlockingProtocol.mkLockResult false (BlockingProtocol.wall c), s).
Proof.
  intros (e & He & Hown & Ht). unfold BlockingProtocol.AcquireLock. rewrite He.
  destruct (Z.gtb_spec (BlockingProtocol.duration_cast_seconds
                          (BlockingProtocol.now c - BlockingProtocol.acquired_at e))
              BlockingProtocol.LOCK_TIMEOUT_SECONDS); [lia|].
  by rewrite (proj2 (Z.eqb_neq _ _) Hown).
Qed.

(** X26. Recovery after a timeout: when the lock of the key is free at
    every replica, be it because no client holds it or because the entry
    has timed out, every replica grants it and a blocking [Write] against
    these replicas succeeds, for any write quorum between 1 and the number
    of servers. *)
Theorem Blocking_Write_succeeds_when_available cfg key val client_id c current clock replicas :
  length replicas = length (Config.servers_ cfg) ->
  1 <= Config.write_quorum_ cfg <= Config.size cfg ->
  Config.size cfg <= INT32_MAX ->
  Forall (lock_available key c) replicas ->
  let locks := lock_replies key client_id c replicas in
  let writes := serve_write key val (wrap64 (clock + 1)) client_id current
                  (after_acquire key client_id c replicas) in
  granting_replicas cfg locks = seq 0 (length (Config.servers_ cfg))
  /\ fst (fst (Write cfg locks writes clock)) = true.
Proof.
  intros Hlen Hq Hn Havail locks writes.
  assert (Hgrant : granting_replicas cfg locks = seq 0 (length (Config.servers_ cfg))).
  { apply granting_all. intros i Hi. subst locks. unfold lock_replies.
    rewrite list_lookup_fmap.
    destruct (lookup_lt_is_Some_2 replicas i ltac:(lia)) as [s Hs]. rewrite Hs. simpl.
    f_equal. apply AcquireLock_available.
    by apply (proj1 (Forall_lookup _ _) Havail i s). }
  split; [done|].
  unfold Write. rewrite to_size_t_small by lia.
  destruct (Z.gtb_spec (Config.write_quorum_ cfg) (Config.size cfg)); [lia|].
  rewrite collect_locks_granting by lia. rewrite Hgrant.
  set (locked := take _ _).
  assert (Hlocked : length locked = Z.to_nat (Config.write_quorum_ cfg)).
  { subst locked. rewrite length_take, length_seq. unfold Config.size in *. lia. }
  rewrite wrap32_small by (unfold INT32_MAX in *; lia).
  destruct (Z.ltb_spec (Z.of_nat (length locked)) (Config.write_quorum_ cfg)); [lia|].
  pose proof (write_locked_count (wrap64 (clock + 1)) writes locked 0
                (UpdateTimestamp (wrap64 (clock + 1)) clock) ltac:(lia)) as Hcount.
  destruct (write_locked _ _ _ _ _) as [[w c'] tr]. simpl in *.
  destruct Hcount as [_ Hall]; [unfold INT32_MAX in *; lia|].
  assert (Hacks : Forall (acknowledges writes) locked).
  { apply Forall_forall. intros idx Hidx. subst locked.
    apply subseteq_take in Hidx. apply elem_of_seq in Hidx.
    unfold acknowledges. subst writes. unfold serve_write, after_acquire.
    rewrite !list_lookup_fmap.
    destruct (lookup_lt_is_Some_2 replicas idx ltac:(lia)) as [s Hs]. rewrite Hs. simpl.
    pose proof (proj1 (Forall_lookup _ _) Havail idx s Hs) as Hs'.
    destruct (AcquireLock_available key client_id c s Hs') as [_ Hholds].
    unfold BlockingProtocol.Write. rewrite Hholds. simpl. by eexists. }
  apply Hall in Hacks.
  destruct (Z.ltb_spec w (Config.write_quorum_ cfg)); [lia | done].
Qed.

Lemma Blocking_Write_succeeds_when_available_witness :
  let cfg := Config.mk [Config.mkServerInfo 0 "a" 5001; Config.mkServerInfo 1 "b" 5002;
                        Config.mkServerInfo 2 "c" 5003] Config.BLOCKING 2 2 3 0 0 in
  let abandoned :=
    snd (BlockingProtocol.AcquireLock "k" 1
           (BlockingProtocol.mkClocks 0 1000 1700000000000) BlockingProtocol.init) in
  let c := BlockingProtocol.mkClocks 31000001000 31000002000 1700000031000 in
  let replicas := [abandoned; abandoned; BlockingProtocol.init] in
  fst (fst (Write cfg (lock_replies "k" 2 c replicas)
              (serve_write "k" "v2" 1700000031001 2 1700000031000
                 (after_acquire "k" 2 c replicas))
              1700000031000)) = true.
Proof.
  intros cfg abandoned c replicas.
  apply (Blocking_Write_succeeds_when_available cfg "k" "v2" 2 c 1700000031000
           1700000031000 replicas).
  - reflexivity.
  - by vm_compute.
  - by vm_compute.
  - repeat constructor; by vm_compute.
Defined.

(** X27. Blocking: while another client holds the lock of the key, not
    timed out, at every replica, a [Write] is denied by all of them and
    fails after its lock requests, without sending a write or a release and
    without moving the clock; the lock requests leave every replica as it
    was. *)
Theorem Blocking_Write_blocked cfg key client_id c writes clock replicas :
  length replicas = length (Config.servers_ cfg) ->
  1 <= Config.write_quorum_ cfg <= Config.size cfg ->
  Config.size cfg <= INT32_MAX ->
  Forall (lock_held_against key client_id c) replicas ->
  Write cfg (lock_replies key client_id c replicas) writes clock
  = (false, clock, map RpcAcquireLock (seq 0 (length (Config.servers_ cfg))))
  /\ after_acquire key client_id c replicas = replicas.
Proof.
  intros Hlen Hq Hn Hheld. split.
  - assert (Hgrant : granting_replicas cfg (lock_replies key client_id c replicas) = []).
    { apply granting_none. intros i Hi. unfold lock_replies. rewrite list_lookup_fmap.
      destruct (lookup_lt_is_Some_2 replicas i ltac:(lia)) as [s Hs]. rewrite Hs. simpl.
      by rewrite (AcquireLock_held_against key client_id c s
                    (proj1 (Forall_lookup _ _) Hheld i s Hs)). }
    unfold Write. rewrite to_size_t_small by lia.
    destruct (Z.gtb_spec (Config.write_quorum_ cfg) (Config.size cfg)); [lia|].
    rewrite collect_locks_granting by lia. rewrite Hgrant, take_nil. simpl.
    change (wrap32 (Z.of_nat 0)) with 0.
    destruct (Z.ltb_spec 0 (Config.write_quorum_ cfg)); [|lia].
    by rewrite app_nil_r.
  - unfold after_acquire. clear Hlen. induction Hheld as [|s l Hs _ IH]; [done|].
    rewrite map_cons, IH. by rewrite (AcquireLock_held_against key client_id c s Hs).
Qed.

Lemma Blocking_Write_blocked_witness :
  let cfg := Config.mk [Config.mkServerInfo 0 "a" 5001; Config.mkServerInfo 1 "b" 5002]
               Config.BLOCKING 2 2 2 0 0 in
  let held :=
    snd (BlockingProtocol.AcquireLock "k" 1
           (BlockingProtocol.mkClocks 0 1000 1700000000000) BlockingProtocol.init) in
  let c := BlockingProtocol.mkClocks 30000001000 30000002000 1700000030000 in
  Write cfg (lock_replies "k" 2 c [held; held]) [] 1700000030000
  = (false, 1700000030000, [RpcAcquireLock 0; RpcAcquireLock 1]).
Proof.
  intros cfg held c.
  apply (Blocking_Write_blocked cfg "k" 2 c [] 1700000030000 [held; held]).
  - reflexivity.
  - by vm_compute.
  - by vm_compute.
  - repeat constructor;
      (exists (BlockingProtocol.mkLockEntry 1 1000); repeat split; [done | by vm_compute]).
Defined.

End BlockingEndToEnd.
